(** * torch/csrc/cupti_tracer.cpp: the CUPTI trace session

    A shallow embedding of the tracer of [torch/csrc/cupti_tracer.cpp]:
    the [Record] store of [Tracer], the decoding switch of
    [Tracer::ActivityCallback], the two buffer callbacks of [CUptiManager],
    and [Tracer::start] / [Tracer::stop].

    The CUPTI library and the C allocator are the environment of this code.
    What they return (the status of each provider call, the address
    [malloc] hands out, the answers of the record cursor over a completed
    buffer) is an input of the model.  Diagnostic output ([printf],
    [fprintf]) is not part of the modelled state. *)

From Stdlib Require Import ZArith List String Bool Lia.
Import ListNotations.

Local Open Scope Z_scope.

(** ** Provider vocabulary (cupti.h) *)

(** [CUptiResult]: the source distinguishes [CUPTI_SUCCESS],
    [CUPTI_ERROR_MAX_LIMIT_REACHED] and every other status. *)
Inductive CUptiResult : Type :=
  | CUPTI_SUCCESS
  | CUPTI_ERROR_MAX_LIMIT_REACHED
  | CUPTI_ERROR_OTHER (code : Z).

(** [CUpti_ActivityKind]: the kinds the source names, and every other one. *)
Inductive CUpti_ActivityKind : Type :=
  | CUPTI_ACTIVITY_KIND_CONTEXT
  | CUPTI_ACTIVITY_KIND_DRIVER
  | CUPTI_ACTIVITY_KIND_RUNTIME
  | CUPTI_ACTIVITY_KIND_MEMCPY
  | CUPTI_ACTIVITY_KIND_MEMSET
  | CUPTI_ACTIVITY_KIND_NAME
  | CUPTI_ACTIVITY_KIND_MARKER
  | CUPTI_ACTIVITY_KIND_KERNEL
  | CUPTI_ACTIVITY_KIND_OVERHEAD
  | CUPTI_ACTIVITY_KIND_CONCURRENT_KERNEL
  | CUPTI_ACTIVITY_KIND_OTHER (tag : Z).

Inductive CUpti_CallbackDomain : Type :=
  | CUPTI_CB_DOMAIN_DRIVER_API
  | CUPTI_CB_DOMAIN_RUNTIME_API
  | CUPTI_CB_DOMAIN_OTHER (tag : Z).

(** The callback ids [start] enables. *)
Inductive CUpti_CallbackId : Type :=
  | CUPTI_DRIVER_TRACE_CBID_cuLaunchKernel
  | CUPTI_DRIVER_TRACE_CBID_cuLaunchKernel_ptsz
  | CUPTI_RUNTIME_TRACE_CBID_cudaLaunch_v3020
  | CUPTI_CBID_OTHER (id : Z).

(** The fields of [CUpti_ActivityAPI] that the tracer copies. *)
Record CUpti_ActivityAPI : Type := mkActivityAPI {
  api_cbid : Z;
  api_start : Z;
  api_end : Z;
  api_processId : Z;
  api_threadId : Z;
  api_correlationId : Z
}.

(** The fields of [CUpti_ActivityKernel4] that the tracer copies. *)
Record CUpti_ActivityKernel4 : Type := mkActivityKernel4 {
  kernel_name : string;
  kernel_start : Z;
  kernel_end : Z;
  kernel_deviceId : Z;
  kernel_contextId : Z;
  kernel_streamId : Z;
  kernel_correlationId : Z
}.

(** A raw activity record.  [ActivityCallback] reads the same storage
    through [reinterpret_cast] as a [CUpti_ActivityAPI] or as a
    [CUpti_ActivityKernel4], depending on [kind]; [as_API] and [as_Kernel4]
    are what the storage holds when read through each of the two types. *)
Record CUpti_Activity : Type := mkActivity {
  activity_kind : CUpti_ActivityKind;
  as_API : CUpti_ActivityAPI;
  as_Kernel4 : CUpti_ActivityKernel4
}.

(** ** Tracer::Record *)

Record Record_ : Type := mkRecord {
  kind : string;
  name : string;
  start_ns : Z;
  end_ns : Z;
  processId : Z;
  threadId : Z;
  correlationId : Z
}.

(** [(unsigned long long) x]. *)
Definition ull (x : Z) : Z := x mod 2 ^ 64.

(** ** Constants *)

Definition BUF_SIZE : Z := 32 * 1024.
Definition ALIGN_SIZE : Z := 8.

(** [(uintptr_t) p] on the 64-bit targets of CUDA. *)
Definition uintptr_t (p : Z) : Z := p mod 2 ^ 64.

(** The pointer addition is written on [Z]; it is the addition of the
    macro for every address that has one alignment of address space above
    it, as every address of a block of [malloc] has. *)
Definition ALIGN_BUFFER (buffer align : Z) : Z :=
  if negb (Z.land (uintptr_t buffer) (align - 1) =? 0)
  then buffer + align - Z.land (uintptr_t buffer) (align - 1)
  else buffer.

(** ** The state of the process

    [records_] is [Tracer::records_].  [provider_calls] lists the provider
    entry points invoked so far, oldest first.  [heap] holds the blocks
    handed out by [malloc] and not yet freed, as (address, size); [freed]
    lists the arguments of the calls of [free], oldest first.  [in_flight]
    holds the buffers the provider has filled and not yet completed. *)

Inductive ProviderCall : Type :=
  | cuptiActivityEnable (k : CUpti_ActivityKind)
  | cuptiActivityDisable (k : CUpti_ActivityKind)
  | cuptiSubscribe
  | cuptiEnableCallback (enable : Z) (domain : CUpti_CallbackDomain)
                        (cbid : CUpti_CallbackId)
  | cuptiUnsubscribe
  | cuptiActivityFlushAll (flag : Z).

(** One call of [cuptiActivityGetNextRecord]: the status it returns and the
    activity [record] points at afterwards ([None] for [nullptr]). *)
Definition CursorAnswer : Type := (CUptiResult * option CUpti_Activity)%type.

(** The arguments of one [BufferCompleted] invocation, with the answers the
    record cursor gives over that buffer, in the order of the calls. *)
Record Completion : Type := mkCompletion {
  buffer : Z;
  size : Z;
  validSize : Z;
  answers : list CursorAnswer
}.

Record World : Type := mkWorld {
  records_ : list Record_;
  provider_calls : list ProviderCall;
  heap : list (Z * Z);
  freed : list Z;
  in_flight : list Completion
}.

(** The process after construction of the [Tracer]: nothing recorded yet. *)
Definition fresh : World := mkWorld [] [] [] [] [].

(** ** Outcomes

    A function of the program returns, or ends the process through
    [exit(code)], or dereferences a null [record] ([Undefined]), or is still
    inside its loop when the supplied cursor answers are used up
    ([Pending]). *)
Inductive outcome (A : Type) : Type :=
  | Returned (a : A) (w : World)
  | Exited (code : Z) (w : World)
  | Undefined (w : World)
  | Pending (w : World).

Arguments Returned {A} a w.
Arguments Exited {A} code w.
Arguments Undefined {A} w.
Arguments Pending {A} w.

Definition M (A : Type) : Type := World -> outcome A.

Definition ret {A : Type} (a : A) : M A := fun w => Returned a w.

Definition bind {A B : Type} (m : M A) (f : A -> M B) : M B :=
  fun w =>
    match m w with
    | Returned a w' => f a w'
    | Exited code w' => Exited code w'
    | Undefined w' => Undefined w'
    | Pending w' => Pending w'
    end.

Notation "x <- m ;; k" := (bind m (fun x => k))
  (at level 61, m at next level, right associativity).
Notation "m ;; k" := (bind m (fun _ => k))
  (at level 61, right associativity).

Definition exit {A : Type} (code : Z) : M A := fun w => Exited code w.

(** The world an outcome ends in. *)
Definition world_of {A : Type} (o : outcome A) : World :=
  match o with
  | Returned _ w | Exited _ w | Undefined w | Pending w => w
  end.

(** ** Tracer::ActivityCallback *)

Definition push_back (r : Record_) : M unit :=
  fun w => Returned tt
    (mkWorld (records_ w ++ [r]) (provider_calls w) (heap w) (freed w)
             (in_flight w)).

Definition ActivityKind_eqb (a b : CUpti_ActivityKind) : bool :=
  match a, b with
  | CUPTI_ACTIVITY_KIND_CONTEXT, CUPTI_ACTIVITY_KIND_CONTEXT
  | CUPTI_ACTIVITY_KIND_DRIVER, CUPTI_ACTIVITY_KIND_DRIVER
  | CUPTI_ACTIVITY_KIND_RUNTIME, CUPTI_ACTIVITY_KIND_RUNTIME
  | CUPTI_ACTIVITY_KIND_MEMCPY, CUPTI_ACTIVITY_KIND_MEMCPY
  | CUPTI_ACTIVITY_KIND_MEMSET, CUPTI_ACTIVITY_KIND_MEMSET
  | CUPTI_ACTIVITY_KIND_NAME, CUPTI_ACTIVITY_KIND_NAME
  | CUPTI_ACTIVITY_KIND_MARKER, CUPTI_ACTIVITY_KIND_MARKER
  | CUPTI_ACTIVITY_KIND_KERNEL, CUPTI_ACTIVITY_KIND_KERNEL
  | CUPTI_ACTIVITY_KIND_OVERHEAD, CUPTI_ACTIVITY_KIND_OVERHEAD
  | CUPTI_ACTIVITY_KIND_CONCURRENT_KERNEL,
    CUPTI_ACTIVITY_KIND_CONCURRENT_KERNEL => true
  | CUPTI_ACTIVITY_KIND_OTHER x, CUPTI_ACTIVITY_KIND_OTHER y => x =? y
  | _, _ => false
  end.

Definition ActivityCallback (record : CUpti_Activity) : M unit :=
  match activity_kind record with
  | CUPTI_ACTIVITY_KIND_DRIVER =>
      let api := as_API record in
      push_back (mkRecord "DRIVER"%string EmptyString
                   (ull (api_start api)) (ull (api_end api))
                   (api_processId api) (api_threadId api)
                   (api_correlationId api))
  | CUPTI_ACTIVITY_KIND_RUNTIME =>
      let api := as_API record in
      push_back (mkRecord "RUNTIME"%string EmptyString
                   (ull (api_start api)) (ull (api_end api))
                   (api_processId api) (api_threadId api)
                   (api_correlationId api))
  | CUPTI_ACTIVITY_KIND_KERNEL
  | CUPTI_ACTIVITY_KIND_CONCURRENT_KERNEL =>
      let kernel := as_Kernel4 record in
      let kindString :=
        if ActivityKind_eqb (activity_kind record) CUPTI_ACTIVITY_KIND_KERNEL
        then "KERNEL"%string else "CONC KERNEL"%string in
      push_back (mkRecord kindString (kernel_name kernel)
                   (ull (kernel_start kernel)) (ull (kernel_end kernel))
                   (kernel_deviceId kernel) (kernel_streamId kernel)
                   (kernel_correlationId kernel))
  | _ => ret tt
  end.

(** [Tracer::get_records]: a copy of the store. *)
Definition get_records : M (list Record_) := fun w => Returned (records_ w) w.

(** ** The C allocator *)

Definition set_heap (h : list (Z * Z)) (f : list Z) (w : World) : World :=
  mkWorld (records_ w) (provider_calls w) h f (in_flight w).

(** [malloc(n)] answering with the address [bfr]; [0] is [NULL]. *)
Definition malloc (bfr n : Z) : M Z :=
  fun w =>
    Returned bfr
      (if bfr =? 0 then w else set_heap ((bfr, n) :: heap w) (freed w) w).

(** The live blocks once the first block allocated at [p] is given back. *)
Fixpoint release_block (p : Z) (h : list (Z * Z)) : list (Z * Z) :=
  match h with
  | [] => []
  | (a, n) :: rest => if a =? p then rest else (a, n) :: release_block p rest
  end.

(** [free(p)]. *)
Definition free (p : Z) : M unit :=
  fun w => Returned tt (set_heap (release_block p (heap w)) (freed w ++ [p]) w).

(** A call of [free(p)] is valid when [p] is the address of a live block. *)
Definition valid_free (p : Z) (w : World) : Prop :=
  exists n, In (p, n) (heap w).

(** ** CUptiManager::InternalBufferRequested

    [bfr] is what [malloc] answers.  The result is
    [( *buffer, *size, *maxNumRecords )]. *)
Definition InternalBufferRequested (bfr : Z) : M (Z * Z * Z) :=
  bfr <- malloc bfr (BUF_SIZE + ALIGN_SIZE) ;;
  if bfr =? 0 then exit (-1)
  else ret (ALIGN_BUFFER bfr ALIGN_SIZE, BUF_SIZE, 0).

(** ** CUPTI_CALL *)

Definition CUPTI_CALL (call : M CUptiResult) : M unit :=
  _status <- call ;;
  match _status with
  | CUPTI_SUCCESS => ret tt
  | _ => exit (-1)
  end.

(** ** CUptiManager::InternalBufferCompleted *)

(** The [do { ... } while (1)] loop, one cursor answer per iteration. *)
Fixpoint extraction_loop (rest : list CursorAnswer) : M unit :=
  match rest with
  | [] => fun w => Pending w
  | (status, record) :: rest' =>
      match status with
      | CUPTI_SUCCESS =>
          match record with
          | Some r => ActivityCallback r ;; extraction_loop rest'
          | None => fun w => Undefined w
          end
      | CUPTI_ERROR_MAX_LIMIT_REACHED => ret tt
      | _ => CUPTI_CALL (ret status) ;; extraction_loop rest'
      end
  end.

Definition InternalBufferCompleted (c : Completion) : M unit :=
  (if 0 <? validSize c then extraction_loop (answers c) else ret tt) ;;
  free (buffer c).

(** ** Tracer::APICallback *)

Definition APICallback (domain : CUpti_CallbackDomain)
    (cbid : CUpti_CallbackId) : M unit :=
  match domain with
  | CUPTI_CB_DOMAIN_RUNTIME_API => ret tt
  | CUPTI_CB_DOMAIN_DRIVER_API => ret tt
  | _ => ret tt
  end.

(** ** The provider, Tracer::start and Tracer::stop *)

Section Provider.

(** The status the provider returns from each entry point. *)
Variable respond : ProviderCall -> CUptiResult.

Definition log_call (c : ProviderCall) : M unit :=
  fun w => Returned tt
    (mkWorld (records_ w) (provider_calls w ++ [c]) (heap w) (freed w)
             (in_flight w)).

Fixpoint complete_all (cs : list Completion) : M unit :=
  match cs with
  | [] => ret tt
  | c :: rest => InternalBufferCompleted c ;; complete_all rest
  end.

(** What a successful [cuptiActivityFlushAll] does before it returns: every
    buffer in flight goes through [BufferCompleted], oldest first. *)
Definition drain : M unit :=
  fun w =>
    complete_all (in_flight w)
      (mkWorld (records_ w) (provider_calls w) (heap w) (freed w) []).

(** One call into the provider. *)
Definition provider (c : ProviderCall) : M CUptiResult :=
  log_call c ;;
  match c, respond c with
  | cuptiActivityFlushAll _, CUPTI_SUCCESS => drain ;; ret CUPTI_SUCCESS
  | _, status => ret status
  end.

Definition start : M unit :=
  CUPTI_CALL (provider (cuptiActivityEnable CUPTI_ACTIVITY_KIND_CONTEXT)) ;;
  CUPTI_CALL (provider (cuptiActivityEnable CUPTI_ACTIVITY_KIND_DRIVER)) ;;
  CUPTI_CALL (provider (cuptiActivityEnable CUPTI_ACTIVITY_KIND_RUNTIME)) ;;
  CUPTI_CALL (provider (cuptiActivityEnable CUPTI_ACTIVITY_KIND_MEMCPY)) ;;
  CUPTI_CALL (provider (cuptiActivityEnable CUPTI_ACTIVITY_KIND_MEMSET)) ;;
  CUPTI_CALL (provider (cuptiActivityEnable CUPTI_ACTIVITY_KIND_NAME)) ;;
  CUPTI_CALL (provider (cuptiActivityEnable CUPTI_ACTIVITY_KIND_MARKER)) ;;
  CUPTI_CALL (provider (cuptiActivityEnable CUPTI_ACTIVITY_KIND_KERNEL)) ;;
  CUPTI_CALL (provider (cuptiActivityEnable CUPTI_ACTIVITY_KIND_OVERHEAD)) ;;
  CUPTI_CALL (provider cuptiSubscribe) ;;
  CUPTI_CALL (provider (cuptiEnableCallback 1 CUPTI_CB_DOMAIN_DRIVER_API
                          CUPTI_DRIVER_TRACE_CBID_cuLaunchKernel)) ;;
  CUPTI_CALL (provider (cuptiEnableCallback 1 CUPTI_CB_DOMAIN_DRIVER_API
                          CUPTI_DRIVER_TRACE_CBID_cuLaunchKernel_ptsz)) ;;
  CUPTI_CALL (provider (cuptiEnableCallback 1 CUPTI_CB_DOMAIN_RUNTIME_API
                          CUPTI_RUNTIME_TRACE_CBID_cudaLaunch_v3020)).

Definition stop : M unit :=
  CUPTI_CALL (provider (cuptiActivityDisable CUPTI_ACTIVITY_KIND_CONTEXT)) ;;
  CUPTI_CALL (provider (cuptiActivityDisable CUPTI_ACTIVITY_KIND_DRIVER)) ;;
  CUPTI_CALL (provider (cuptiActivityDisable CUPTI_ACTIVITY_KIND_RUNTIME)) ;;
  CUPTI_CALL (provider (cuptiActivityDisable CUPTI_ACTIVITY_KIND_MEMCPY)) ;;
  CUPTI_CALL (provider (cuptiActivityDisable CUPTI_ACTIVITY_KIND_MEMSET)) ;;
  CUPTI_CALL (provider (cuptiActivityDisable CUPTI_ACTIVITY_KIND_NAME)) ;;
  CUPTI_CALL (provider (cuptiActivityDisable CUPTI_ACTIVITY_KIND_MARKER)) ;;
  CUPTI_CALL (provider (cuptiActivityDisable CUPTI_ACTIVITY_KIND_KERNEL)) ;;
  CUPTI_CALL (provider (cuptiActivityDisable CUPTI_ACTIVITY_KIND_OVERHEAD)) ;;
  CUPTI_CALL (provider cuptiUnsubscribe) ;;
  CUPTI_CALL (provider (cuptiActivityFlushAll 0)).

(** ** Sessions

    What happens to the process, in order: the application calls [start]
    or [stop]; the provider invokes the subscribed [APICallback], asks for
    a buffer, hands a completed buffer back, or finishes filling a buffer
    that it keeps until the next flush. *)
Inductive Event : Type :=
  | Ev_start
  | Ev_stop
  | Ev_APICallback (domain : CUpti_CallbackDomain) (cbid : CUpti_CallbackId)
  | Ev_BufferRequested (bfr : Z)
  | Ev_BufferCompleted (c : Completion)
  | Ev_filled (c : Completion).

Definition hold (c : Completion) : M unit :=
  fun w => Returned tt
    (mkWorld (records_ w) (provider_calls w) (heap w) (freed w)
             (in_flight w ++ [c])).

Definition step (e : Event) : M unit :=
  match e with
  | Ev_start => start
  | Ev_stop => stop
  | Ev_APICallback domain cbid => APICallback domain cbid
  | Ev_BufferRequested bfr => InternalBufferRequested bfr ;; ret tt
  | Ev_BufferCompleted c => InternalBufferCompleted c
  | Ev_filled c => hold c
  end.

Fixpoint run (es : list Event) : M unit :=
  match es with
  | [] => ret tt
  | e :: rest => step e ;; run rest
  end.

End Provider.

(** The provider whose every entry point succeeds. *)
Definition cooperative (c : ProviderCall) : CUptiResult := CUPTI_SUCCESS.

(** ** The binding layer

    [THPModule_startCUptiTracing] calls [start]; [THPModule_endCUptiTracing]
    calls [stop] and then converts [get_records()], field by field and in
    order, into a Python list. *)
Definition THPModule_startCUptiTracing
    (respond : ProviderCall -> CUptiResult) : M unit :=
  start respond.

Definition THPModule_endCUptiTracing
    (respond : ProviderCall -> CUptiResult) : M (list Record_) :=
  stop respond ;; get_records.

(** ** Reading a session *)

(** The records [ActivityCallback] appends for one raw record. *)
Definition decoded (raw : CUpti_Activity) : list Record_ :=
  records_ (world_of (ActivityCallback raw fresh)).

(** The raw records the cursor answers carry. *)
Definition raws_of_answers (l : list CursorAnswer) : list CUpti_Activity :=
  flat_map (fun a => match snd a with Some r => [r] | None => [] end) l.

Definition raws_of (c : Completion) : list CUpti_Activity :=
  raws_of_answers (answers c).

Definition raws_of_event (e : Event) : list CUpti_Activity :=
  match e with
  | Ev_BufferCompleted c | Ev_filled c => raws_of c
  | _ => []
  end.

(** Every raw record the provider can deliver in the session [es] started
    in [w]. *)
Definition delivered (es : list Event) (w : World) : list CUpti_Activity :=
  flat_map raws_of (in_flight w) ++ flat_map raws_of_event es.

(** A cursor answer that delivers [r]. *)
Definition success (r : CUpti_Activity) : CursorAnswer :=
  (CUPTI_SUCCESS, Some r).

Definition enabled_kinds (calls : list ProviderCall)
  : list CUpti_ActivityKind :=
  flat_map (fun c => match c with cuptiActivityEnable k => [k] | _ => [] end)
           calls.

Definition disabled_kinds (calls : list ProviderCall)
  : list CUpti_ActivityKind :=
  flat_map (fun c => match c with cuptiActivityDisable k => [k] | _ => [] end)
           calls.

(** The categories [start] enables on a cooperative provider, in order. *)
Definition start_order : list CUpti_ActivityKind :=
  Eval cbv in enabled_kinds (provider_calls (world_of (start cooperative fresh))).

(** The kinds [ActivityCallback] has no case for. *)
Definition undecoded_kind (k : CUpti_ActivityKind) : Prop :=
  k <> CUPTI_ACTIVITY_KIND_DRIVER /\ k <> CUPTI_ACTIVITY_KIND_RUNTIME /\
  k <> CUPTI_ACTIVITY_KIND_KERNEL /\ k <> CUPTI_ACTIVITY_KIND_CONCURRENT_KERNEL.

(** The tags the spec lists, and the tags the code writes. *)
Definition listed_tags : list string :=
  ["DRIVER"; "RUNTIME"; "KERNEL"; "CONCURRENT_KERNEL"]%string.

Definition written_tags : list string :=
  ["DRIVER"; "RUNTIME"; "KERNEL"; "CONC KERNEL"]%string.

(** The span of a record, and of the raw record it is decoded from, read
    through the type its kind selects. *)
Definition span_ok (r : Record_) : Prop := start_ns r <= end_ns r.

Definition raw_span_ok (raw : CUpti_Activity) : Prop :=
  match activity_kind raw with
  | CUPTI_ACTIVITY_KIND_DRIVER | CUPTI_ACTIVITY_KIND_RUNTIME =>
      0 <= api_start (as_API raw) <= api_end (as_API raw) /\
      api_end (as_API raw) < 2 ^ 64
  | CUPTI_ACTIVITY_KIND_KERNEL | CUPTI_ACTIVITY_KIND_CONCURRENT_KERNEL =>
      0 <= kernel_start (as_Kernel4 raw) <= kernel_end (as_Kernel4 raw) /\
      kernel_end (as_Kernel4 raw) < 2 ^ 64
  | _ => True
  end.

Definition is_APICallback (e : Event) : bool :=
  match e with Ev_APICallback _ _ => true | _ => false end.

(** ** Threads

    The buffer callbacks run on threads of the provider and [get_records]
    on the thread of the application.  The rule for what that means is the
    one of the C++ memory model ([intro.races]): two actions conflict when
    they access the same object and one of them modifies it, and an
    execution in which two conflicting actions of different threads are not
    ordered by happens-before has a data race, hence undefined behaviour.
    The one object the threads share is [Tracer::records_].  The source
    takes no lock and has no atomic, so actions are ordered inside a thread,
    by what the environment synchronises ([sync], pairs of positions), and
    by nothing else. *)
Inductive Access : Type := Reads | Modifies.

Inductive Op : Type :=
  | Op_ActivityCallback (record : CUpti_Activity)
  | Op_get_records.

Definition run_op (o : Op) : M unit :=
  match o with
  | Op_ActivityCallback record => ActivityCallback record
  | Op_get_records => get_records ;; ret tt
  end.

Fixpoint run_ops (ops : list Op) : M unit :=
  match ops with
  | [] => ret tt
  | o :: rest => run_op o ;; run_ops rest
  end.

(** What an operation appends when it runs alone. *)
Definition appended (o : Op) : list Record_ :=
  match o with
  | Op_ActivityCallback record => decoded record
  | Op_get_records => []
  end.

(** How an operation accesses [records_]: [push_back] modifies it, the copy
    that [get_records] returns reads it, and [ActivityCallback] does not
    touch it for a kind it has no case for. *)
Definition access (o : Op) : option Access :=
  match o with
  | Op_ActivityCallback record =>
      match decoded record with
      | [] => None
      | _ :: _ => Some Modifies
      end
  | Op_get_records => Some Reads
  end.

Definition conflict (a b : Op) : bool :=
  match access a, access b with
  | Some Modifies, Some _ | Some _, Some Modifies => true
  | _, _ => false
  end.

(** An action is an operation with the thread that runs it; in a list of
    actions, those of one thread are in the order the thread runs them. *)
Definition Action : Type := (nat * Op)%type.

Inductive happens_before (acts : list Action) (sync : list (nat * nat))
  : nat -> nat -> Prop :=
  | hb_sequenced (i j : nat) (a b : Action) :
      nth_error acts i = Some a -> nth_error acts j = Some b ->
      fst a = fst b -> (i < j)%nat -> happens_before acts sync i j
  | hb_sync (i j : nat) :
      In (i, j) sync -> happens_before acts sync i j
  | hb_trans (i j k : nat) :
      happens_before acts sync i j -> happens_before acts sync j k ->
      happens_before acts sync i k.

Definition data_race (acts : list Action) (sync : list (nat * nat)) : Prop :=
  exists i j a b,
    nth_error acts i = Some a /\ nth_error acts j = Some b /\
    fst a <> fst b /\ conflict (snd a) (snd b) = true /\
    ~ happens_before acts sync i j /\ ~ happens_before acts sync j i.

(** Two actions of different threads that conflict. *)
Fixpoint racy (acts : list Action) : bool :=
  match acts with
  | [] => false
  | a :: rest =>
      existsb (fun b => negb (fst a =? fst b)%nat &&
                        conflict (snd a) (snd b)) rest
      || racy rest
  end.

(** ** Checked call sequences

    [start] and [stop] are runs of [CUPTI_CALL]s; [checked_then cs k] is
    such a run over the calls [cs], followed by [k]. *)
Definition checked_then (respond : ProviderCall -> CUptiResult)
    (cs : list ProviderCall) (k : M unit) : M unit :=
  fold_right (fun c rest => CUPTI_CALL (provider respond c) ;; rest) k cs.

(** The provider calls of [start] and of [stop], read off a run on a
    cooperative provider. *)
Definition start_calls : list ProviderCall :=
  Eval cbv in provider_calls (world_of (start cooperative fresh)).

Definition stop_calls : list ProviderCall :=
  Eval cbv in provider_calls (world_of (stop cooperative fresh)).

(** [w] with the calls [cs] added to the provider log. *)
Definition logged (cs : list ProviderCall) (w : World) : World :=
  mkWorld (records_ w) (provider_calls w ++ cs) (heap w) (freed w)
          (in_flight w).

Definition is_flush (c : ProviderCall) : bool :=
  match c with cuptiActivityFlushAll _ => true | _ => false end.

(** ** What a completion extracts *)

(** The raw records the loop hands to [ActivityCallback]: those of the
    leading answers that succeed with a record. *)
Fixpoint consumed (l : list CursorAnswer) : list CUpti_Activity :=
  match l with
  | (CUPTI_SUCCESS, Some r) :: rest => r :: consumed rest
  | _ => []
  end.

Definition extracted (c : Completion) : list CUpti_Activity :=
  if 0 <? validSize c then consumed (answers c) else [].

Definition is_decoded_kind (k : CUpti_ActivityKind) : bool :=
  match k with
  | CUPTI_ACTIVITY_KIND_DRIVER | CUPTI_ACTIVITY_KIND_RUNTIME
  | CUPTI_ACTIVITY_KIND_KERNEL | CUPTI_ACTIVITY_KIND_CONCURRENT_KERNEL => true
  | _ => false
  end.

(** A completion whose cursor, after the records it delivers, answers a
    status other than success; or that is not extracted at all. *)
Definition well_terminated (c : Completion) : Prop :=
  validSize c <= 0 \/
  exists pre status record post,
    answers c = map success pre ++ (status, record) :: post /\
    status <> CUPTI_SUCCESS.

(** A completion whose cursor ends on [CUPTI_ERROR_MAX_LIMIT_REACHED]. *)
Definition ends_at_limit (c : Completion) : Prop :=
  validSize c <= 0 \/
  exists pre record post,
    answers c =
      map success pre ++ (CUPTI_ERROR_MAX_LIMIT_REACHED, record) :: post.

Definition completions_of (e : Event) : list Completion :=
  match e with
  | Ev_BufferCompleted c | Ev_filled c => [c]
  | _ => []
  end.

(** How an outcome may end: by returning, by [exit(-1)], and, when [lax],
    in [Undefined] or [Pending]. *)
Definition ends {A : Type} (lax : bool) (o : outcome A) : Prop :=
  match o with
  | Returned _ _ => True
  | Exited code _ => code = -1
  | Undefined _ | Pending _ => lax = true
  end.

(** [m] ends so from every state of [I], and keeps [I]. *)
Definition tame {A : Type} (lax : bool) (I : World -> Prop) (m : M A) : Prop :=
  forall w, I w -> ends lax (m w) /\ I (world_of (m w)).

(** ** The Python binding

    [PyObject] holds what the binding builds: [None], strings, integers,
    and lists whose items may be [NULL] ([None] here).  The CPython
    allocations are taken to succeed and the error indicator is not part of
    the state; the arguments of [PyLong_From...] are unsigned values
    converted to an unsigned type at least as wide.  A [Record_] holds the
    bytes its [kind] and [name] point at, so a null pointer there is not a
    value of the model. *)
#[warnings="-register-all"]
Inductive PyObject : Type :=
  | Py_None
  | PyUnicode (s : string)
  | PyLong (n : Z)
  | PyList (items : list (option PyObject)).

Definition INT_MAX : Z := 2 ^ 31 - 1.

Definition byte_of (a : Ascii.ascii) : Z := Z.of_N (Ascii.N_of_ascii a).

(** The bytes of a C string: those before the first zero byte. *)
Fixpoint c_str (s : string) : string :=
  match s with
  | EmptyString => EmptyString
  | String a rest =>
      if byte_of a =? 0 then EmptyString else String a (c_str rest)
  end.

Definition within (lo : Z) (a : Ascii.ascii) (hi : Z) : bool :=
  (lo <=? byte_of a) && (byte_of a <=? hi).

(** Well-formed UTF-8, as the strict decoder of CPython accepts it: no
    overlong form, no surrogate, nothing above U+10FFFF. *)
Fixpoint valid_utf8 (s : string) : bool :=
  match s with
  | EmptyString => true
  | String a rest =>
      if within 0 a 127 then valid_utf8 rest
      else if within 194 a 223 then
        match rest with
        | String a1 r1 => within 128 a1 191 && valid_utf8 r1
        | _ => false
        end
      else if within 224 a 239 then
        match rest with
        | String a1 (String a2 r2) =>
            (if byte_of a =? 224 then within 160 a1 191
             else if byte_of a =? 237 then within 128 a1 159
             else within 128 a1 191)
            && within 128 a2 191 && valid_utf8 r2
        | _ => false
        end
      else if within 240 a 244 then
        match rest with
        | String a1 (String a2 (String a3 r3)) =>
            (if byte_of a =? 240 then within 144 a1 191
             else if byte_of a =? 244 then within 128 a1 143
             else within 128 a1 191)
            && within 128 a2 191 && within 128 a3 191 && valid_utf8 r3
        | _ => false
        end
      else false
  end.

(** [PyUnicode_FromString(u)]: the text of the C string [u], or [NULL] when
    its bytes are not UTF-8. *)
Definition PyUnicode_FromString (u : string) : option PyObject :=
  if valid_utf8 (c_str u) then Some (PyUnicode (c_str u)) else None.

Definition PyLong_FromUnsignedLongLong (v : Z) : option PyObject :=
  Some (PyLong v).

Definition PyLong_FromUnsignedLong (v : Z) : option PyObject :=
  Some (PyLong v).

Definition PyList_New (len : Z) : PyObject :=
  PyList (repeat None (Z.to_nat len)).

Fixpoint set_nth {A : Type} (n : nat) (x : A) (l : list A) : list A :=
  match l, n with
  | [], _ => []
  | _ :: rest, O => x :: rest
  | a :: rest, S n' => a :: set_nth n' x rest
  end.

(** [PyList_SetItem(list, i, item)]: it stores [item], [NULL] included, and
    out of range it stores nothing; the binding ignores its status. *)
Definition PyList_SetItem (op : PyObject) (i : Z) (item : option PyObject)
  : PyObject :=
  match op with
  | PyList items =>
      if (0 <=? i) && (i <? Z.of_nat (List.length items))
      then PyList (set_nth (Z.to_nat i) item items)
      else op
  | _ => op
  end.

(** The body of the conversion loop for one record. *)
Definition py_record_of (record : Record_) : PyObject :=
  let py_record := PyList_New 7 in
  let py_record :=
    PyList_SetItem py_record 0 (PyUnicode_FromString (kind record)) in
  let py_record :=
    PyList_SetItem py_record 1 (PyUnicode_FromString (name record)) in
  let py_record :=
    PyList_SetItem py_record 2
      (PyLong_FromUnsignedLongLong (start_ns record)) in
  let py_record :=
    PyList_SetItem py_record 3 (PyLong_FromUnsignedLongLong (end_ns record)) in
  let py_record :=
    PyList_SetItem py_record 4 (PyLong_FromUnsignedLong (processId record)) in
  let py_record :=
    PyList_SetItem py_record 5 (PyLong_FromUnsignedLong (threadId record)) in
  let py_record :=
    PyList_SetItem py_record 6
      (PyLong_FromUnsignedLong (correlationId record)) in
  py_record.

(** [for (int i = ...; i < records.size(); ++i)], from [i] on; [None] when
    [++i] leaves the range of [int] or [records[i]] is out of range.  One
    unit of [fuel] per iteration. *)
Fixpoint convert_from (fuel : nat) (i : Z) (records : list Record_)
    (ret : PyObject) : option PyObject :=
  if i <? Z.of_nat (List.length records) then
    match fuel with
    | O => None
    | S fuel' =>
        match nth_error records (Z.to_nat i) with
        | Some record =>
            let ret := PyList_SetItem ret i (Some (py_record_of record)) in
            if i =? INT_MAX then None
            else convert_from fuel' (i + 1) records ret
        | None => None
        end
    end
  else Some ret.

(** The Python method [start_cupti_tracing]. *)
Definition start_cupti_tracing (respond : ProviderCall -> CUptiResult)
  : M PyObject :=
  start respond ;; ret Py_None.

(** The Python method [end_cupti_tracing], with the list it returns. *)
Definition end_cupti_tracing (respond : ProviderCall -> CUptiResult)
  : M PyObject :=
  stop respond ;;
  records <- get_records ;;
  let ret_ := PyList_New (Z.of_nat (List.length records)) in
  match convert_from (List.length records) 0 records ret_ with
  | Some ret_ => ret ret_
  | None => fun w => Undefined w
  end.

(** The row of seven items the binding builds for a record: the two
    strings where they decode, and the five numbers. *)
Definition row (r : Record_) : PyObject :=
  PyList [PyUnicode_FromString (kind r); PyUnicode_FromString (name r);
          Some (PyLong (start_ns r)); Some (PyLong (end_ns r));
          Some (PyLong (processId r)); Some (PyLong (threadId r));
          Some (PyLong (correlationId r))].

(** The same row with every item set. *)
Definition full_row (r : Record_) : PyObject :=
  PyList [Some (PyUnicode (c_str (kind r)));
          Some (PyUnicode (c_str (name r)));
          Some (PyLong (start_ns r)); Some (PyLong (end_ns r));
          Some (PyLong (processId r)); Some (PyLong (threadId r));
          Some (PyLong (correlationId r))].

(** The block a request allocates at [bfr]. *)
Definition block_at (bfr : Z) : Z * Z := (bfr, BUF_SIZE + ALIGN_SIZE).

(** What it takes for a property [Q] of records to hold of the store: of
    what a raw record decodes to, of the raw records of a completion, and of
    a state with its store and the buffers in flight. *)
Definition raw_ok (Q : Record_ -> Prop) (raw : CUpti_Activity) : Prop :=
  Forall Q (decoded raw).

Definition completion_ok (Q : Record_ -> Prop) (c : Completion) : Prop :=
  Forall (raw_ok Q) (raws_of c).

Definition store_ok (Q : Record_ -> Prop) (w : World) : Prop :=
  Forall Q (records_ w) /\ Forall (completion_ok Q) (in_flight w).

(** States that agree on the provider log and on the buffers in flight, and
    states that agree on the allocator. *)
Definition framed (calls : list ProviderCall) (held : list Completion)
    (w : World) : Prop :=
  provider_calls w = calls /\ in_flight w = held.

Definition untouched (h : list (Z * Z)) (f : list Z) (w : World) : Prop :=
  heap w = h /\ freed w = f.

(** [m] keeps [I] along every outcome. *)
Definition preserves {A : Type} (I : World -> Prop) (m : M A) : Prop :=
  forall w, I w -> I (world_of (m w)).

(** * Properties *)

(** ** The monad *)

Lemma preserves_bind {A B : Type} (I : World -> Prop) (m : M A) (f : A -> M B) :
  preserves I m -> (forall a, preserves I (f a)) -> preserves I (bind m f).
Proof.
  intros Hm Hf w Hw. unfold bind.
  specialize (Hm w Hw).
  destruct (m w) as [a w'|code w'|w'|w']; simpl in *; auto.
  apply Hf; assumption.
Qed.

Lemma preserves_ret {A : Type} (I : World -> Prop) (a : A) : preserves I (ret a).
Proof. intros w Hw. exact Hw. Qed.

Lemma preserves_exit {A : Type} (I : World -> Prop) (code : Z) :
  preserves I (@exit A code).
Proof. intros w Hw. exact Hw. Qed.

Lemma preserves_CUPTI_CALL (I : World -> Prop) (call : M CUptiResult) :
  preserves I call -> preserves I (CUPTI_CALL call).
Proof.
  intros Hc. unfold CUPTI_CALL. apply preserves_bind; [exact Hc|].
  intros [| |code]; auto using preserves_ret, preserves_exit.
Qed.

Create HintDb keep.

#[local] Hint Resolve preserves_ret preserves_exit preserves_bind
  preserves_CUPTI_CALL : keep.

(** A bind returns only when both halves do. *)
Lemma bind_returned {A B : Type} (m : M A) (f : A -> M B) w b w2 :
  bind m f w = Returned b w2 ->
  exists a w1, m w = Returned a w1 /\ f a w1 = Returned b w2.
Proof.
  unfold bind. destruct (m w) as [a w1| | |]; try discriminate.
  intros H. exists a, w1. split; [reflexivity|exact H].
Qed.

Lemma bind_congr {A B : Type} (m : M A) (f g : A -> M B) w :
  (forall a w1, f a w1 = g a w1) -> bind m f w = bind m g w.
Proof.
  intros H. unfold bind. destruct (m w); try reflexivity. apply H.
Qed.

(** ** ActivityCallback *)

Lemma ActivityCallback_appends (raw : CUpti_Activity) (w : World) :
  ActivityCallback raw w =
  Returned tt (mkWorld (records_ w ++ decoded raw) (provider_calls w)
                       (heap w) (freed w) (in_flight w)).
Proof.
  unfold decoded, ActivityCallback.
  destruct (activity_kind raw); try reflexivity;
    destruct w; unfold ret; simpl; rewrite app_nil_r; reflexivity.
Qed.

Lemma undecoded_nothing (raw : CUpti_Activity) :
  undecoded_kind (activity_kind raw) -> decoded raw = [].
Proof.
  unfold undecoded_kind, decoded, ActivityCallback.
  intros (Hd & Hr & Hk & Hc).
  destruct (activity_kind raw); try reflexivity; congruence.
Qed.

(** ** A property of every stored record

    [Q] holds of the whole store as long as it holds of what each delivered
    raw record decodes to. *)
Section StoreInvariant.

Variable Q : Record_ -> Prop.
Variable respond : ProviderCall -> CUptiResult.

Lemma ActivityCallback_ok raw :
  raw_ok Q raw -> preserves (store_ok Q) (ActivityCallback raw).
Proof.
  intros Hraw w [Hrec Hfl]. rewrite ActivityCallback_appends. simpl.
  split; simpl; [apply Forall_app; split; assumption|assumption].
Qed.

Lemma extraction_loop_ok l :
  Forall (raw_ok Q) (raws_of_answers l) ->
  preserves (store_ok Q) (extraction_loop l).
Proof.
  induction l as [|[status record] rest IH]; intros Hl.
  - intros w Hw. exact Hw.
  - simpl. destruct status as [| |code].
    + destruct record as [r|].
      * simpl in Hl. inversion Hl; subst.
        apply preserves_bind; [apply ActivityCallback_ok; assumption|].
        intros _. apply IH; assumption.
      * intros w Hw. exact Hw.
    + apply preserves_ret.
    + apply preserves_bind; [auto with keep|].
      intros _. apply IH.
      unfold raws_of_answers in *. simpl in Hl.
      apply Forall_app in Hl. apply Hl.
Qed.

Lemma free_ok p : preserves (store_ok Q) (free p).
Proof. intros w Hw. exact Hw. Qed.

Lemma InternalBufferCompleted_ok c :
  completion_ok Q c -> preserves (store_ok Q) (InternalBufferCompleted c).
Proof.
  intros Hc. unfold InternalBufferCompleted.
  apply preserves_bind; [|intros _; apply free_ok].
  destruct (0 <? validSize c); [apply extraction_loop_ok; exact Hc|].
  apply preserves_ret.
Qed.

Lemma InternalBufferRequested_ok bfr :
  preserves (store_ok Q) (InternalBufferRequested bfr).
Proof.
  unfold InternalBufferRequested. apply preserves_bind.
  - intros w Hw. unfold malloc. simpl. destruct (bfr =? 0); exact Hw.
  - intros a. destruct (a =? 0); auto with keep.
Qed.

Lemma complete_all_ok cs :
  Forall (completion_ok Q) cs -> preserves (store_ok Q) (complete_all cs).
Proof.
  induction cs as [|c rest IH]; intros Hcs; simpl.
  - apply preserves_ret.
  - inversion Hcs; subst.
    apply preserves_bind; [apply InternalBufferCompleted_ok; assumption|].
    intros _. apply IH; assumption.
Qed.

Lemma drain_ok : preserves (store_ok Q) drain.
Proof.
  intros w [Hrec Hfl]. unfold drain.
  apply complete_all_ok; [exact Hfl|].
  split; simpl; [exact Hrec|constructor].
Qed.

Lemma provider_ok c : preserves (store_ok Q) (provider respond c).
Proof.
  unfold provider. apply preserves_bind.
  - intros w Hw. exact Hw.
  - intros _. destruct c; try apply preserves_ret.
    destruct (respond (cuptiActivityFlushAll flag)); try apply preserves_ret.
    apply preserves_bind; [apply drain_ok|intros _; apply preserves_ret].
Qed.

#[local] Hint Resolve provider_ok : keep.

Lemma start_ok : preserves (store_ok Q) (start respond).
Proof. unfold start. repeat (apply preserves_bind; [auto with keep|intros _]).
       auto with keep. Qed.

Lemma stop_ok : preserves (store_ok Q) (stop respond).
Proof. unfold stop. repeat (apply preserves_bind; [auto with keep|intros _]).
       auto with keep. Qed.

Lemma hold_ok c : completion_ok Q c -> preserves (store_ok Q) (hold c).
Proof.
  intros Hc w [Hrec Hfl]. split; simpl; [exact Hrec|].
  apply Forall_app. split; [exact Hfl|]. constructor; [exact Hc|constructor].
Qed.

Lemma step_ok e :
  Forall (raw_ok Q) (raws_of_event e) ->
  preserves (store_ok Q) (step respond e).
Proof.
  destruct e; simpl; intros He.
  - apply start_ok.
  - apply stop_ok.
  - unfold APICallback. destruct domain; apply preserves_ret.
  - apply preserves_bind; [apply InternalBufferRequested_ok|].
    intros _. apply preserves_ret.
  - apply InternalBufferCompleted_ok. exact He.
  - apply hold_ok. exact He.
Qed.

Lemma run_ok es :
  Forall (raw_ok Q) (flat_map raws_of_event es) ->
  preserves (store_ok Q) (run respond es).
Proof.
  induction es as [|e rest IH]; simpl; intros Hes.
  - apply preserves_ret.
  - apply Forall_app in Hes. destruct Hes as [He Hrest].
    apply preserves_bind; [apply step_ok; exact He|].
    intros _. apply IH. exact Hrest.
Qed.

(** The invariant, stated on what the session can deliver. *)
Lemma session_store (es : list Event) (w : World) :
  Forall Q (records_ w) ->
  Forall (raw_ok Q) (delivered es w) ->
  Forall Q (records_ (world_of (run respond es w))).
Proof.
  intros Hrec Hdel. unfold delivered in Hdel.
  apply Forall_app in Hdel. destruct Hdel as [Hfl Hes].
  apply (run_ok es Hes w). split; [exact Hrec|].
  apply Forall_forall. intros c Hc. unfold completion_ok.
  apply Forall_forall. intros raw Hraw.
  rewrite Forall_forall in Hfl. apply Hfl.
  apply in_flat_map. exists c. split; assumption.
Qed.

End StoreInvariant.

(** ** The concrete session *)

(** C1.  A session is started, the provider asks for a buffer and delivers
    it with one runtime-API record (start 100, end 150, process 1, thread 7,
    correlation 42) followed by one serial-kernel record (name matmul, start
    160, end 300, device 0, stream 3, correlation 42); [get_records()] after
    [stop()] is then exactly the RUNTIME record with an empty name followed
    by the KERNEL record named matmul, both with correlation id 42.  This
    holds whether the buffer is completed before [stop] or by its flush, and
    whatever the fields the scenario leaves open. *)
Theorem session_runtime_then_kernel :
  forall (bfr valid cbid contextId : Z)
         (other_api : CUpti_ActivityAPI) (other_kernel : CUpti_ActivityKernel4)
         (last : option CUpti_Activity),
    bfr <> 0 -> 0 < valid ->
    let runtime :=
      mkActivity CUPTI_ACTIVITY_KIND_RUNTIME
                 (mkActivityAPI cbid 100 150 1 7 42) other_kernel in
    let kernel :=
      mkActivity CUPTI_ACTIVITY_KIND_KERNEL other_api
                 (mkActivityKernel4 "matmul" 160 300 0 contextId 3 42) in
    let c :=
      mkCompletion (ALIGN_BUFFER bfr ALIGN_SIZE) BUF_SIZE valid
        [success runtime; success kernel;
         (CUPTI_ERROR_MAX_LIMIT_REACHED, last)] in
    let expected :=
      [mkRecord "RUNTIME" EmptyString 100 150 1 7 42;
       mkRecord "KERNEL" "matmul" 160 300 0 3 42] in
    (exists w,
        (run cooperative [Ev_start; Ev_BufferRequested bfr; Ev_BufferCompleted c] ;;
         THPModule_endCUptiTracing cooperative) fresh = Returned expected w) /\
    (exists w,
        (run cooperative [Ev_start; Ev_BufferRequested bfr; Ev_filled c] ;;
         THPModule_endCUptiTracing cooperative) fresh = Returned expected w) /\
    Forall (fun r => correlationId r = 42) expected.
Proof.
  intros bfr valid cbid contextId other_api other_kernel last Hbfr Hvalid.
  apply Z.eqb_neq in Hbfr. apply Z.ltb_lt in Hvalid.
  cbv zeta.
  split; [|split].
  - eexists.
    cbv [bind run step start stop THPModule_endCUptiTracing get_records
         CUPTI_CALL provider log_call cooperative ret exit fresh drain
         complete_all InternalBufferRequested InternalBufferCompleted malloc
         free hold extraction_loop success ActivityCallback push_back
         activity_kind as_API as_Kernel4 ActivityKind_eqb
         records_ provider_calls heap freed in_flight set_heap
         validSize answers buffer app].
    rewrite Hbfr. cbv iota beta. rewrite Hvalid. cbv iota beta.
    reflexivity.
  - eexists.
    cbv [bind run step start stop THPModule_endCUptiTracing get_records
         CUPTI_CALL provider log_call cooperative ret exit fresh drain
         complete_all InternalBufferRequested InternalBufferCompleted malloc
         free hold extraction_loop success ActivityCallback push_back
         activity_kind as_API as_Kernel4 ActivityKind_eqb
         records_ provider_calls heap freed in_flight set_heap
         validSize answers buffer app].
    rewrite Hbfr. cbv iota beta. rewrite Hvalid. cbv iota beta.
    reflexivity.
  - repeat constructor.
Qed.

Lemma session_runtime_then_kernel_witness :
  exists w,
    (run cooperative
       [Ev_start; Ev_BufferRequested 4096;
        Ev_BufferCompleted
          (mkCompletion (ALIGN_BUFFER 4096 ALIGN_SIZE) BUF_SIZE 128
             [success (mkActivity CUPTI_ACTIVITY_KIND_RUNTIME
                         (mkActivityAPI 5 100 150 1 7 42)
                         (mkActivityKernel4 EmptyString 0 0 0 0 0 0));
              success (mkActivity CUPTI_ACTIVITY_KIND_KERNEL
                         (mkActivityAPI 0 0 0 0 0 0)
                         (mkActivityKernel4 "matmul" 160 300 0 1 3 42));
              (CUPTI_ERROR_MAX_LIMIT_REACHED, None)])] ;;
     THPModule_endCUptiTracing cooperative) fresh
    = Returned [mkRecord "RUNTIME" EmptyString 100 150 1 7 42;
                mkRecord "KERNEL" "matmul" 160 300 0 3 42] w.
Proof.
  exact (proj1 (session_runtime_then_kernel 4096 128 5 1
                  (mkActivityAPI 0 0 0 0 0 0)
                  (mkActivityKernel4 EmptyString 0 0 0 0 0 0) None
                  ltac:(discriminate) ltac:(reflexivity))).
Defined.

(** ** Kind tags *)

Lemma decoded_tags (raw : CUpti_Activity) :
  Forall (fun r => In (kind r) written_tags) (decoded raw).
Proof.
  unfold decoded, ActivityCallback, written_tags.
  destruct (activity_kind raw); simpl; try apply Forall_nil;
    (apply Forall_cons; [simpl; tauto|apply Forall_nil]).
Qed.

(** C2, as stated, fails: the record decoded from a concurrent-kernel raw
    record carries the tag CONC KERNEL, which is none of DRIVER, RUNTIME,
    KERNEL, CONCURRENT_KERNEL. *)
Lemma concurrent_kernel_tag_not_listed :
  let raw :=
    mkActivity CUPTI_ACTIVITY_KIND_CONCURRENT_KERNEL
               (mkActivityAPI 0 0 0 0 0 0)
               (mkActivityKernel4 "matmul" 160 300 0 1 3 42) in
  let r := mkRecord "CONC KERNEL" "matmul" 160 300 0 3 42 in
  ActivityCallback raw fresh = Returned tt (mkWorld [r] [] [] [] []) /\
  ~ In (kind r) listed_tags /\
  kind r <> "CONCURRENT_KERNEL"%string.
Proof.
  cbv zeta. split; [reflexivity|]. split.
  - simpl. intros [H|[H|[H|[H|[]]]]]; discriminate H.
  - discriminate.
Qed.

(** C2, amended.  Every record of the store carries one of the four tags
    DRIVER, RUNTIME, KERNEL, CONC KERNEL, along any session that starts from
    a store of such records; and decoding a concurrent-kernel raw record
    appends exactly one record, tagged CONC KERNEL. *)
Theorem store_tags_are_written_tags :
  forall (respond : ProviderCall -> CUptiResult) (es : list Event) (w : World),
    Forall (fun r => In (kind r) written_tags) (records_ w) ->
    Forall (fun r => In (kind r) written_tags)
           (records_ (world_of (run respond es w))) /\
    (forall raw w0,
        activity_kind raw = CUPTI_ACTIVITY_KIND_CONCURRENT_KERNEL ->
        exists r,
          records_ (world_of (ActivityCallback raw w0)) = records_ w0 ++ [r] /\
          kind r = "CONC KERNEL"%string).
Proof.
  intros respond es w Hw. split.
  - apply session_store; [exact Hw|].
    apply Forall_forall. intros raw _. apply decoded_tags.
  - intros raw w0 Hk. rewrite ActivityCallback_appends. simpl.
    unfold decoded, ActivityCallback. rewrite Hk. simpl.
    eexists. split; reflexivity.
Qed.

Lemma store_tags_are_written_tags_witness :
  Forall (fun r => In (kind r) written_tags)
    (records_
       (world_of
          (run cooperative
             [Ev_start;
              Ev_BufferCompleted
                (mkCompletion 4096 BUF_SIZE 64
                   [success (mkActivity CUPTI_ACTIVITY_KIND_CONCURRENT_KERNEL
                               (mkActivityAPI 0 0 0 0 0 0)
                               (mkActivityKernel4 "matmul" 160 300 0 1 3 42));
                    (CUPTI_ERROR_MAX_LIMIT_REACHED, None)]);
              Ev_stop] fresh))).
Proof.
  exact (proj1 (store_tags_are_written_tags cooperative _ fresh
                  ltac:(simpl; constructor))).
Defined.

(** ** start and stop *)

(** Completing buffers calls no provider entry point of the log and puts
    nothing in flight. *)
Section CompletionFrame.

Variable calls : list ProviderCall.
Variable held : list Completion.

Lemma extraction_loop_framed l : preserves (framed calls held) (extraction_loop l).
Proof.
  induction l as [|[status record] rest IH]; simpl.
  - intros w Hw. exact Hw.
  - destruct status as [| |code].
    + destruct record as [r|]; [|intros w Hw; exact Hw].
      apply preserves_bind; [|intros _; exact IH].
      intros w Hw. rewrite ActivityCallback_appends. exact Hw.
    + apply preserves_ret.
    + apply preserves_bind; [auto with keep|intros _; exact IH].
Qed.

Lemma InternalBufferCompleted_framed c :
  preserves (framed calls held) (InternalBufferCompleted c).
Proof.
  unfold InternalBufferCompleted. apply preserves_bind.
  - destruct (0 <? validSize c);
      [apply extraction_loop_framed|apply preserves_ret].
  - intros _ w Hw. exact Hw.
Qed.

Lemma complete_all_framed cs : preserves (framed calls held) (complete_all cs).
Proof.
  induction cs as [|c rest IH]; simpl; [apply preserves_ret|].
  apply preserves_bind;
    [apply InternalBufferCompleted_framed|intros _; exact IH].
Qed.

End CompletionFrame.

(** What one checked provider call leaves behind when it returns. *)
Lemma CUPTI_CALL_provider_returned respond c w w1 :
  CUPTI_CALL (provider respond c) w = Returned tt w1 ->
  respond c = CUPTI_SUCCESS /\
  match c with
  | cuptiActivityFlushAll _ =>
      complete_all (in_flight w)
        (mkWorld (records_ w) (provider_calls w ++ [c]) (heap w) (freed w) [])
      = Returned tt w1
  | _ =>
      w1 = mkWorld (records_ w) (provider_calls w ++ [c]) (heap w) (freed w)
                   (in_flight w)
  end.
Proof.
  unfold CUPTI_CALL, provider, bind, log_call, drain, ret, exit.
  destruct c; destruct (respond _) eqn:Hr; simpl;
    try discriminate; try (intros H; inversion H; split; reflexivity).
  destruct (complete_all _ _) as [[] w2|code w2|w2|w2]; try discriminate.
  intros H. inversion H. split; reflexivity.
Qed.

(** C3, as stated, fails: the categories [stop] disables, in the order of
    its calls, are not the reverse of the order in which [start] enabled
    them. *)
Lemma stop_order_is_not_reversed :
  disabled_kinds (provider_calls (world_of (stop cooperative fresh))) <>
  rev (enabled_kinds (provider_calls (world_of (start cooperative fresh)))).
Proof. vm_compute. discriminate. Qed.

(** C3, amended.  Whenever [stop] returns it has called the provider to
    disable exactly the categories [start] enables, in the same order as
    [start] enables them, then to unsubscribe, then to flush, and nothing
    else; the flush has completed every buffer that was in flight. *)
Theorem stop_disables_in_start_order :
  forall (respond : ProviderCall -> CUptiResult) (w w' : World),
    stop respond w = Returned tt w' ->
    provider_calls w' =
      provider_calls w ++ map cuptiActivityDisable start_order ++
      [cuptiUnsubscribe; cuptiActivityFlushAll 0] /\
    complete_all (in_flight w)
      (mkWorld (records_ w)
               (provider_calls w ++ map cuptiActivityDisable start_order ++
                [cuptiUnsubscribe; cuptiActivityFlushAll 0])
               (heap w) (freed w) []) = Returned tt w' /\
    in_flight w' = [] /\
    (forall w0 ws,
        start respond w0 = Returned tt ws ->
        enabled_kinds (provider_calls ws) =
          enabled_kinds (provider_calls w0) ++ start_order).
Proof.
  intros respond w w' H.
  assert (Hdone :
    complete_all (in_flight w)
      (mkWorld (records_ w)
               (provider_calls w ++ map cuptiActivityDisable start_order ++
                [cuptiUnsubscribe; cuptiActivityFlushAll 0])
               (heap w) (freed w) []) = Returned tt w').
  { unfold stop in H.
    repeat (apply bind_returned in H; destruct H as ([] & w1 & H1 & H);
            apply CUPTI_CALL_provider_returned in H1; destruct H1 as [_ H1];
            subst w1; simpl in H).
    apply CUPTI_CALL_provider_returned in H. destruct H as [_ H].
    simpl in H. repeat rewrite <- app_assoc in H. exact H. }
  match type of Hdone with
  | complete_all _ ?W = _ =>
      pose proof (complete_all_framed (provider_calls W) (in_flight W)
                    (in_flight w) W (conj eq_refl eq_refl)) as Hframe
  end.
  rewrite Hdone in Hframe. destruct Hframe as [Hcalls Hheld]. simpl in *.
  repeat split; try assumption.
  intros w0 ws Hs. unfold start in Hs.
  repeat (apply bind_returned in Hs; destruct Hs as ([] & w1 & H1 & Hs);
          apply CUPTI_CALL_provider_returned in H1; destruct H1 as [_ H1];
          subst w1; simpl in Hs).
  apply CUPTI_CALL_provider_returned in Hs. destruct Hs as [_ Hs].
  subst ws. simpl. unfold enabled_kinds.
  repeat rewrite flat_map_app. simpl. repeat rewrite <- app_assoc.
  reflexivity.
Qed.

Lemma stop_disables_in_start_order_witness :
  provider_calls (world_of (stop cooperative fresh)) =
    map cuptiActivityDisable start_order ++
    [cuptiUnsubscribe; cuptiActivityFlushAll 0].
Proof.
  exact (proj1 (stop_disables_in_start_order cooperative fresh
                  (world_of (stop cooperative fresh))
                  ltac:(vm_compute; reflexivity))).
Defined.

(** ** Buffers: request and release *)

Lemma ALIGN_BUFFER_8 (bfr : Z) :
  ALIGN_BUFFER bfr ALIGN_SIZE =
  if bfr mod 8 =? 0 then bfr else bfr + 8 - bfr mod 8.
Proof.
  unfold ALIGN_BUFFER, ALIGN_SIZE, uintptr_t.
  change (8 - 1) with (Z.ones 3).
  rewrite Z.land_ones by lia.
  rewrite Z.mod_mod_divide by (exists (2 ^ 61); reflexivity).
  change (2 ^ 3) with 8. destruct (bfr mod 8 =? 0); reflexivity.
Qed.

(** What a request returns when the allocator answers a non-null address. *)
Lemma InternalBufferRequested_returned (bfr : Z) (w : World) :
  bfr <> 0 ->
  InternalBufferRequested bfr w =
  Returned (ALIGN_BUFFER bfr ALIGN_SIZE, BUF_SIZE, 0)
           (set_heap ((bfr, BUF_SIZE + ALIGN_SIZE) :: heap w) (freed w) w).
Proof.
  intros Hbfr. apply Z.eqb_neq in Hbfr.
  unfold InternalBufferRequested, malloc, bind, ret. rewrite Hbfr. reflexivity.
Qed.

(** The extraction loop touches neither the allocator nor the provider. *)
Section ExtractionFrame.

Variable h : list (Z * Z).
Variable f : list Z.

Lemma extraction_loop_untouched l : preserves (untouched h f) (extraction_loop l).
Proof.
  induction l as [|[status record] rest IH]; simpl.
  - intros w Hw. exact Hw.
  - destruct status as [| |code].
    + destruct record as [r|]; [|intros w Hw; exact Hw].
      apply preserves_bind; [|intros _; exact IH].
      intros w Hw. rewrite ActivityCallback_appends. exact Hw.
    + apply preserves_ret.
    + apply preserves_bind; [auto with keep|intros _; exact IH].
Qed.

End ExtractionFrame.

(** A completion that returns has run its extraction to the end and then
    called [free] once, on the pointer it was given. *)
Lemma InternalBufferCompleted_returned (c : Completion) (w w' : World) :
  InternalBufferCompleted c w = Returned tt w' ->
  exists wl,
    (if 0 <? validSize c then extraction_loop (answers c) else ret tt) w
      = Returned tt wl /\
    free (buffer c) wl = Returned tt w' /\
    heap wl = heap w /\ freed wl = freed w.
Proof.
  unfold InternalBufferCompleted. intros H.
  apply bind_returned in H. destruct H as ([] & wl & Hloop & Hfree).
  exists wl. split; [exact Hloop|]. split; [exact Hfree|].
  assert (Hkeep : untouched (heap w) (freed w) wl).
  { destruct (0 <? validSize c).
    - pose proof (extraction_loop_untouched (heap w) (freed w) (answers c) w
                    (conj eq_refl eq_refl)) as Hu.
      rewrite Hloop in Hu. exact Hu.
    - inversion Hloop; subst. split; reflexivity. }
  exact Hkeep.
Qed.

(** A completion frees the pointer the provider hands back, which is the
    pointer the request returned; that pointer is the address the allocator
    answered exactly when this address is a multiple of 8. *)
Lemma completion_frees_provider_pointer :
  forall (bfr : Z) (w w1 w2 : World) (p cap maxn : Z) (c : Completion),
    InternalBufferRequested bfr w = Returned (p, cap, maxn) w1 ->
    buffer c = p ->
    InternalBufferCompleted c w1 = Returned tt w2 ->
    freed w2 = freed w ++ [p] /\
    p = ALIGN_BUFFER bfr ALIGN_SIZE /\
    (p = bfr <-> bfr mod 8 = 0) /\
    (bfr mod 8 = 0 -> valid_free p w1 /\ heap w2 = heap w).
Proof.
  intros bfr w w1 w2 p cap maxn c Hreq Hbuf Hdone.
  assert (Hbfr : bfr <> 0).
  { intros ->. discriminate Hreq. }
  rewrite (InternalBufferRequested_returned bfr w Hbfr) in Hreq.
  inversion Hreq as [[Hp Hcap Hmaxn Hw1]]; clear Hreq.
  subst w1 cap maxn.
  apply InternalBufferCompleted_returned in Hdone.
  destruct Hdone as (wl & _ & Hfree & Hheap & Hfreed).
  unfold free in Hfree. inversion Hfree; subst w2; clear Hfree.
  simpl in *. rewrite Hheap, Hfreed, Hbuf. clear Hheap Hfreed Hbuf.
  subst p. rewrite ALIGN_BUFFER_8.
  split; [reflexivity|]. split; [reflexivity|].
  destruct (bfr mod 8 =? 0) eqn:Hmod.
  - apply Z.eqb_eq in Hmod. split; [tauto|]. intros _. split.
    + exists (BUF_SIZE + ALIGN_SIZE). left. reflexivity.
    + simpl. rewrite Z.eqb_refl. reflexivity.
  - apply Z.eqb_neq in Hmod.
    pose proof (Z.mod_pos_bound bfr 8 ltac:(lia)) as Hm.
    split; [split; intros; lia|].
    intros H. contradiction.
Qed.

(** C4.  [malloc] answers addresses aligned for every object type, so
    multiples of 8.  For every such allocation, the pointer the request hands
    to the provider is the address the allocator answered, and when the
    provider hands it back the completion calls [free] on that address: the
    free is valid, it is the only one, and it gives back the whole block of
    [BUF_SIZE + ALIGN_SIZE] bytes, so that the live blocks are again those
    before the request. *)
Theorem release_frees_allocated_block :
  forall (bfr : Z) (w w1 w2 : World) (p cap maxn : Z) (c : Completion),
    bfr mod 8 = 0 ->
    InternalBufferRequested bfr w = Returned (p, cap, maxn) w1 ->
    buffer c = p ->
    InternalBufferCompleted c w1 = Returned tt w2 ->
    p = bfr /\
    heap w1 = (bfr, BUF_SIZE + ALIGN_SIZE) :: heap w /\
    valid_free bfr w1 /\
    freed w2 = freed w ++ [bfr] /\
    heap w2 = heap w.
Proof.
  intros bfr w w1 w2 p cap maxn c Hmod Hreq Hbuf Hdone.
  destruct (completion_frees_provider_pointer bfr w w1 w2 p cap maxn c
              Hreq Hbuf Hdone) as (Hfreed & _ & Hiff & Hvalid).
  assert (Hp : p = bfr) by (apply Hiff; exact Hmod).
  destruct (Hvalid Hmod) as [Hv Hheap]. rewrite Hp in Hv, Hfreed.
  split; [exact Hp|]. split.
  - assert (Hbfr : bfr <> 0) by (intros ->; discriminate Hreq).
    rewrite (InternalBufferRequested_returned bfr w Hbfr) in Hreq.
    inversion Hreq; subst. reflexivity.
  - split; [exact Hv|]. split; [exact Hfreed|exact Hheap].
Qed.

Lemma release_frees_allocated_block_witness :
  let w := mkWorld [] [] [(8192, BUF_SIZE + ALIGN_SIZE)] [] [] in
  let w1 :=
    mkWorld [] [] [(4096, BUF_SIZE + ALIGN_SIZE);
                   (8192, BUF_SIZE + ALIGN_SIZE)] [] [] in
  let c := mkCompletion 4096 BUF_SIZE 0 [] in
  let w2 := mkWorld [] [] [(8192, BUF_SIZE + ALIGN_SIZE)] [4096] [] in
  InternalBufferRequested 4096 w = Returned (4096, BUF_SIZE, 0) w1 /\
  InternalBufferCompleted c w1 = Returned tt w2 /\
  valid_free 4096 w1 /\
  freed w2 = freed w ++ [4096] /\
  heap w2 = heap w.
Proof.
  cbv zeta.
  match goal with
  | |- ?L1 = ?R1 /\ ?L2 = ?R2 /\ _ =>
      assert (H1 : L1 = R1) by (vm_compute; reflexivity);
      assert (H2 : L2 = R2) by (vm_compute; reflexivity);
      split; [exact H1|]; split; [exact H2|];
      exact (proj2 (proj2 (release_frees_allocated_block 4096 _ _ _
                             4096 BUF_SIZE 0 (mkCompletion 4096 BUF_SIZE 0 [])
                             eq_refl H1 eq_refl H2)))
  end.
Defined.

(** C5.  Given the address the allocator answers, a buffer request either
    ends the process with [exit(-1)] (the allocator answered [NULL]) or
    returns a non-null pointer that is a multiple of 8 and lies in the block
    of [BUF_SIZE + ALIGN_SIZE] bytes just allocated, with [BUF_SIZE] bytes
    of that block after it, and reports the capacity [BUF_SIZE], which is
    32 KiB. *)
Theorem buffer_request_aborts_or_aligns :
  forall (bfr : Z) (w : World),
    0 <= bfr ->
    (bfr = 0 /\ InternalBufferRequested bfr w = Exited (-1) w) \/
    (exists p w',
        InternalBufferRequested bfr w = Returned (p, BUF_SIZE, 0) w' /\
        p <> 0 /\ p mod 8 = 0 /\
        heap w' = (bfr, BUF_SIZE + ALIGN_SIZE) :: heap w /\
        bfr <= p /\ p + BUF_SIZE <= bfr + (BUF_SIZE + ALIGN_SIZE) /\
        BUF_SIZE = 32768).
Proof.
  intros bfr w Hpos. destruct (Z.eq_dec bfr 0) as [->|Hbfr].
  - left. split; reflexivity.
  - right. eexists. eexists.
    split; [apply InternalBufferRequested_returned; exact Hbfr|].
    rewrite ALIGN_BUFFER_8. unfold BUF_SIZE, ALIGN_SIZE. simpl heap.
    destruct (bfr mod 8 =? 0) eqn:Hmod.
    + apply Z.eqb_eq in Hmod. repeat split; try assumption; lia.
    + apply Z.eqb_neq in Hmod.
      pose proof (Z.mod_pos_bound bfr 8 ltac:(lia)) as Hm.
      pose proof (Z.div_mod bfr 8 ltac:(lia)) as Hd.
      repeat split; try lia.
      replace (bfr + 8 - bfr mod 8) with ((bfr / 8 + 1) * 8) by lia.
      apply Z_mod_mult.
Qed.

Lemma buffer_request_aborts_or_aligns_witness :
  exists p w',
    InternalBufferRequested 4097 fresh = Returned (p, BUF_SIZE, 0) w' /\
    p <> 0 /\ p mod 8 = 0 /\
    heap w' = (4097, BUF_SIZE + ALIGN_SIZE) :: heap fresh /\
    4097 <= p /\ p + BUF_SIZE <= 4097 + (BUF_SIZE + ALIGN_SIZE) /\
    BUF_SIZE = 32768.
Proof.
  destruct (buffer_request_aborts_or_aligns 4097 fresh ltac:(lia))
    as [[H _]|H]; [discriminate H|exact H].
Defined.

(** ** The buffer-completed handler *)

(** Answers that deliver records are decoded one after the other. *)
Lemma extraction_loop_delivers (pre : list CUpti_Activity)
    (rest : list CursorAnswer) (w : World) :
  extraction_loop (map success pre ++ rest) w =
  extraction_loop rest
    (mkWorld (records_ w ++ flat_map decoded pre) (provider_calls w)
             (heap w) (freed w) (in_flight w)).
Proof.
  revert w. induction pre as [|r pre IH]; intros w; simpl.
  - rewrite app_nil_r. destruct w; reflexivity.
  - unfold bind at 1. rewrite ActivityCallback_appends, IH. simpl.
    rewrite <- app_assoc. reflexivity.
Qed.

(** The loop ends the process only with status -1, and only on an answer
    whose status is neither success nor the end of the buffer. *)
Lemma extraction_loop_exited (l : list CursorAnswer) (w w' : World) (code : Z) :
  extraction_loop l w = Exited code w' ->
  code = -1 /\
  exists pre status record post,
    l = map success pre ++ (status, record) :: post /\
    status <> CUPTI_SUCCESS /\ status <> CUPTI_ERROR_MAX_LIMIT_REACHED.
Proof.
  revert w. induction l as [|[status record] rest IH]; intros w; simpl.
  - discriminate.
  - destruct status as [| |err].
    + destruct record as [r|]; [|discriminate].
      unfold bind at 1. rewrite ActivityCallback_appends. intros H.
      destruct (IH _ H) as (Hcode & pre & status & record & post & Hl & Hs).
      split; [exact Hcode|].
      exists (r :: pre), status, record, post. rewrite Hl. split; [reflexivity|exact Hs].
    + discriminate.
    + intros H. inversion H; subst. split; [reflexivity|].
      exists [], (CUPTI_ERROR_OTHER err), record, rest.
      split; [reflexivity|]. split; discriminate.
Qed.

(** C6.  For every completed buffer: when the cursor, after any number of
    delivered records, answers a status that is neither success nor the end
    of the buffer, the handler ends the process with [exit(-1)] and frees
    nothing; the process is ended in no other case; whenever the handler
    returns, extraction has returned first without any call of [free], and
    the handler has then called [free] exactly once, on the buffer; with
    [validSize] zero it returns so without extracting; and when the cursor
    answers the end of the buffer the handler does return, with every
    delivered record decoded. *)
Theorem completion_is_fatal_or_releases_once :
  forall (c : Completion) (w : World),
    (forall pre status record post,
        0 < validSize c ->
        answers c = map success pre ++ (status, record) :: post ->
        status <> CUPTI_SUCCESS ->
        status <> CUPTI_ERROR_MAX_LIMIT_REACHED ->
        exists w',
          InternalBufferCompleted c w = Exited (-1) w' /\ freed w' = freed w) /\
    (forall code w',
        InternalBufferCompleted c w = Exited code w' ->
        code = -1 /\ 0 < validSize c /\
        exists pre status record post,
          answers c = map success pre ++ (status, record) :: post /\
          status <> CUPTI_SUCCESS /\
          status <> CUPTI_ERROR_MAX_LIMIT_REACHED) /\
    (forall w',
        InternalBufferCompleted c w = Returned tt w' ->
        exists wl,
          (if 0 <? validSize c then extraction_loop (answers c) else ret tt) w
            = Returned tt wl /\
          freed wl = freed w /\
          free (buffer c) wl = Returned tt w' /\
          freed w' = freed w ++ [buffer c]) /\
    (validSize c <= 0 ->
        InternalBufferCompleted c w =
        Returned tt (set_heap (release_block (buffer c) (heap w))
                              (freed w ++ [buffer c]) w)) /\
    (forall pre record post,
        0 < validSize c ->
        answers c =
          map success pre ++ (CUPTI_ERROR_MAX_LIMIT_REACHED, record) :: post ->
        exists w',
          InternalBufferCompleted c w = Returned tt w' /\
          records_ w' = records_ w ++ flat_map decoded pre /\
          freed w' = freed w ++ [buffer c]).
Proof.
  intros c w. repeat apply conj.
  - intros pre status record post Hvalid Hans Hs Hm.
    apply Z.ltb_lt in Hvalid.
    unfold InternalBufferCompleted, bind. rewrite Hvalid, Hans.
    rewrite extraction_loop_delivers. simpl.
    destruct status as [| |err]; try congruence.
    simpl. eexists. split; reflexivity.
  - intros code w' H. unfold InternalBufferCompleted, bind in H.
    destruct (0 <? validSize c) eqn:Hvalid.
    + destruct (extraction_loop (answers c) w) as [[] wl|code' wl|wl|wl] eqn:Hloop;
        try discriminate.
      inversion H; subst code' wl.
      apply extraction_loop_exited in Hloop. destruct Hloop as [Hcode Hex].
      apply Z.ltb_lt in Hvalid. split; [exact Hcode|]. split; assumption.
    + discriminate H.
  - intros w' H.
    destruct (InternalBufferCompleted_returned c w w' H)
      as (wl & Hloop & Hfree & _ & Hfreed).
    exists wl. repeat split; try assumption.
    unfold free in Hfree. inversion Hfree; subst w'. simpl.
    rewrite Hfreed. reflexivity.
  - intros Hvalid. apply Z.ltb_ge in Hvalid.
    unfold InternalBufferCompleted, bind. rewrite Hvalid. reflexivity.
  - intros pre record post Hvalid Hans. apply Z.ltb_lt in Hvalid.
    unfold InternalBufferCompleted, bind. rewrite Hvalid, Hans.
    rewrite extraction_loop_delivers. simpl.
    eexists. split; [reflexivity|]. split; reflexivity.
Qed.

(** ** Kinds the decoder has no case for *)

(** C7.  A raw record whose kind is none of driver API, runtime API, serial
    kernel, concurrent kernel makes [ActivityCallback] return with the whole
    state, the store included, unchanged: it decodes to no record; and a
    buffer that carries such a record anywhere among its answers is
    extracted exactly as the same buffer without it. *)
Theorem unknown_kind_is_dropped :
  forall raw : CUpti_Activity,
    undecoded_kind (activity_kind raw) ->
    (forall w, ActivityCallback raw w = Returned tt w) /\
    decoded raw = [] /\
    (forall pre post w,
        extraction_loop (pre ++ success raw :: post) w =
        extraction_loop (pre ++ post) w).
Proof.
  intros raw Hk.
  assert (Hid : forall w, ActivityCallback raw w = Returned tt w).
  { intros w. rewrite ActivityCallback_appends.
    rewrite (undecoded_nothing raw Hk), app_nil_r. destruct w; reflexivity. }
  split; [exact Hid|]. split; [apply undecoded_nothing; exact Hk|].
  induction pre as [|[status record] pre IH]; intros post w; simpl.
  - unfold bind. rewrite Hid. reflexivity.
  - destruct status as [| |err]; [destruct record as [r|]| |];
      try reflexivity; unfold bind.
    destruct (ActivityCallback r w); try reflexivity. apply IH.
Qed.

Lemma unknown_kind_is_dropped_witness :
  ActivityCallback
    (mkActivity CUPTI_ACTIVITY_KIND_MEMCPY (mkActivityAPI 0 10 20 1 2 3)
                (mkActivityKernel4 EmptyString 10 20 0 0 0 3))
    fresh = Returned tt fresh.
Proof.
  refine (proj1 (unknown_kind_is_dropped
                   (mkActivity CUPTI_ACTIVITY_KIND_MEMCPY
                      (mkActivityAPI 0 10 20 1 2 3)
                      (mkActivityKernel4 EmptyString 10 20 0 0 0 3)) _) fresh).
  unfold undecoded_kind. simpl. repeat split; discriminate.
Defined.

Example completion_of_corrupt_buffer_exits :
  InternalBufferCompleted
    (mkCompletion 4096 BUF_SIZE 96
       [success (mkActivity CUPTI_ACTIVITY_KIND_DRIVER
                   (mkActivityAPI 1 10 20 1 2 3)
                   (mkActivityKernel4 EmptyString 0 0 0 0 0 0));
        (CUPTI_ERROR_OTHER 1, None)])
    fresh
  = Exited (-1)
      (mkWorld [mkRecord "DRIVER" EmptyString 10 20 1 2 3] [] [] [] []).
Proof. reflexivity. Qed.

Example completion_of_empty_buffer_frees :
  InternalBufferCompleted (mkCompletion 4096 BUF_SIZE 0 [])
    (mkWorld [] [] [(4096, BUF_SIZE + ALIGN_SIZE)] [] [])
  = Returned tt (mkWorld [] [] [] [4096] []).
Proof. reflexivity. Qed.

(** ** Spans *)

Lemma decoded_span (raw : CUpti_Activity) :
  raw_span_ok raw -> Forall span_ok (decoded raw).
Proof.
  unfold raw_span_ok, decoded, ActivityCallback, span_ok.
  destruct (activity_kind raw); simpl; intros H; try apply Forall_nil;
    (apply Forall_cons; [|apply Forall_nil]); simpl; unfold ull;
    rewrite !Z.mod_small by lia; lia.
Qed.

(** C8, as stated, fails: the provider delivers a runtime-API record with
    start 150 and end 100, the session completes, and the store holds a
    record whose end is before its start. *)
Lemma store_copies_provider_span :
  let raw :=
    mkActivity CUPTI_ACTIVITY_KIND_RUNTIME (mkActivityAPI 5 150 100 1 7 42)
               (mkActivityKernel4 EmptyString 0 0 0 0 0 0) in
  let c :=
    mkCompletion 4096 BUF_SIZE 64
      [success raw; (CUPTI_ERROR_MAX_LIMIT_REACHED, None)] in
  let session :=
    (run cooperative
       [Ev_start; Ev_BufferRequested 4096; Ev_BufferCompleted c] ;;
     THPModule_endCUptiTracing cooperative) fresh in
  session = Returned [mkRecord "RUNTIME" EmptyString 150 100 1 7 42]
                     (world_of session) /\
  ~ Forall (fun r => end_ns r >= start_ns r) (records_ (world_of session)).
Proof.
  cbv zeta. split; [vm_compute; reflexivity|].
  intros H. vm_compute in H. inversion H as [|r l Hr _]; subst.
  apply Hr. reflexivity.
Qed.

(** C8, amended.  The decoder copies both timestamps of a raw record
    unchanged and checks neither, so every record of the store has its end
    at or after its start along any session in which this holds of the
    store it starts from and of every raw record of a decoded kind that the
    provider delivers. *)
Theorem store_spans_follow_provider :
  forall (respond : ProviderCall -> CUptiResult) (es : list Event) (w : World),
    Forall span_ok (records_ w) ->
    Forall raw_span_ok (delivered es w) ->
    Forall (fun r => end_ns r >= start_ns r)
           (records_ (world_of (run respond es w))).
Proof.
  intros respond es w Hw Hdel.
  apply Forall_impl with (P := span_ok);
    [unfold span_ok; intros r Hr; lia|].
  apply session_store; [exact Hw|].
  apply Forall_impl with (P := raw_span_ok); [|exact Hdel].
  intros raw Hraw. apply decoded_span. exact Hraw.
Qed.

Lemma store_spans_follow_provider_witness :
  Forall (fun r => end_ns r >= start_ns r)
    (records_
       (world_of
          (run cooperative
             [Ev_start; Ev_BufferRequested 4096;
              Ev_BufferCompleted
                (mkCompletion 4096 BUF_SIZE 64
                   [success (mkActivity CUPTI_ACTIVITY_KIND_RUNTIME
                               (mkActivityAPI 5 100 150 1 7 42)
                               (mkActivityKernel4 EmptyString 0 0 0 0 0 0));
                    (CUPTI_ERROR_MAX_LIMIT_REACHED, None)]);
              Ev_stop] fresh))).
Proof.
  apply (store_spans_follow_provider cooperative _ fresh).
  - simpl. constructor.
  - unfold delivered. simpl. constructor; [|constructor].
    unfold raw_span_ok. simpl. lia.
Defined.

(** ** Threads and the store *)

Lemma conflict_sym (a b : Op) : conflict a b = conflict b a.
Proof.
  unfold conflict.
  destruct (access a) as [[|]|]; destruct (access b) as [[|]|]; reflexivity.
Qed.

(** Without synchronisation, only actions of one thread are ordered. *)
Lemma happens_before_unsynchronised (acts : list Action) (i j : nat) :
  happens_before acts [] i j ->
  exists a b,
    nth_error acts i = Some a /\ nth_error acts j = Some b /\ fst a = fst b.
Proof.
  induction 1 as [i j a b Ha Hb Hab _|i j []|i j k _ IH1 _ IH2].
  - exists a, b. repeat split; assumption.
  - destruct IH1 as (a & b & Ha & Hb & Hab).
    destruct IH2 as (b' & c & Hb' & Hc & Hbc).
    exists a, c. repeat split; try assumption.
    rewrite Hb in Hb'. inversion Hb'; subst b'. congruence.
Qed.

Lemma racy_spec (acts : list Action) :
  racy acts = true <->
  exists i j a b,
    (i < j)%nat /\ nth_error acts i = Some a /\ nth_error acts j = Some b /\
    fst a <> fst b /\ conflict (snd a) (snd b) = true.
Proof.
  induction acts as [|x rest IH]; simpl.
  - split; [discriminate|]. intros (i & j & a & b & _ & Ha & _).
    destruct i; discriminate Ha.
  - rewrite orb_true_iff, existsb_exists, IH. split.
    + intros [(b & Hin & Hb)|(i & j & a & b & Hlt & Ha & Hb & Hne & Hc)].
      * apply andb_true_iff in Hb. destruct Hb as [Hne Hc].
        apply negb_true_iff, Nat.eqb_neq in Hne.
        apply In_nth_error in Hin. destruct Hin as [n Hn].
        exists 0%nat, (S n), x, b. repeat split; try assumption. lia.
      * exists (S i), (S j), a, b. repeat split; try assumption. lia.
    + intros (i & j & a & b & Hlt & Ha & Hb & Hne & Hc).
      destruct i as [|i].
      * destruct j as [|j]; [lia|]. simpl in Ha, Hb. inversion Ha; subst x.
        left. exists b. split; [apply nth_error_In with j; exact Hb|].
        apply andb_true_iff. split; [|exact Hc].
        apply negb_true_iff, Nat.eqb_neq. exact Hne.
      * destruct j as [|j]; [lia|]. simpl in Ha, Hb.
        right. exists i, j, a, b. repeat split; try assumption. lia.
Qed.

Lemma run_ops_appends (ops : list Op) (w : World) :
  run_ops ops w =
  Returned tt (mkWorld (records_ w ++ flat_map appended ops)
                       (provider_calls w) (heap w) (freed w) (in_flight w)).
Proof.
  revert w. induction ops as [|o ops IH]; intros w; simpl.
  - rewrite app_nil_r. destruct w; reflexivity.
  - unfold bind at 1. destruct o as [record|]; simpl.
    + rewrite ActivityCallback_appends, IH. simpl.
      rewrite <- app_assoc. reflexivity.
    + unfold bind, get_records, ret. rewrite IH. reflexivity.
Qed.



Example serialised_callbacks_keep_every_record :
  run_ops
    [Op_ActivityCallback
       (mkActivity CUPTI_ACTIVITY_KIND_RUNTIME
                   (mkActivityAPI 5 100 150 1 7 42)
                   (mkActivityKernel4 EmptyString 0 0 0 0 0 0));
     Op_get_records;
     Op_ActivityCallback
       (mkActivity CUPTI_ACTIVITY_KIND_KERNEL (mkActivityAPI 0 0 0 0 0 0)
                   (mkActivityKernel4 "matmul" 160 300 0 1 3 42))]
    fresh
  = Returned tt
      (mkWorld [mkRecord "RUNTIME" EmptyString 100 150 1 7 42;
                mkRecord "KERNEL" "matmul" 160 300 0 3 42] [] [] [] []).
Proof. vm_compute. reflexivity. Qed.

(** ** The subscribed host-API callback *)

Lemma APICallback_returns domain cbid w :
  APICallback domain cbid w = Returned tt w.
Proof. destruct domain; reflexivity. Qed.

(** C10.  For every domain and callback id, [APICallback] returns with the
    state, the record store included, unchanged; a session runs exactly as
    the same session with its [APICallback] invocations left out; and every
    record of the store after a session was in the store before it or is
    decoded from a raw record of a buffer the provider delivered. *)
Theorem api_callback_leaves_store :
  forall (respond : ProviderCall -> CUptiResult)
         (domain : CUpti_CallbackDomain) (cbid : CUpti_CallbackId) (w : World),
    APICallback domain cbid w = Returned tt w /\
    records_ (world_of (APICallback domain cbid w)) = records_ w /\
    (forall es w0,
        run respond es w0 =
        run respond (filter (fun e => negb (is_APICallback e)) es) w0) /\
    (forall es,
        Forall (fun r => In r (records_ w) \/
                         exists raw, In raw (delivered es w) /\
                                     In r (decoded raw))
               (records_ (world_of (run respond es w)))).
Proof.
  intros respond domain cbid w.
  split; [apply APICallback_returns|].
  split; [rewrite APICallback_returns; reflexivity|]. split.
  - induction es as [|e rest IH]; intros w0; [reflexivity|].
    destruct e; cbn [run step filter is_APICallback negb];
      try (apply bind_congr; intros _ w1; apply IH).
    unfold bind. rewrite APICallback_returns. apply IH.
  - intros es. apply session_store.
    + apply Forall_forall. intros r Hr. left. exact Hr.
    + apply Forall_forall. intros raw Hraw.
      unfold raw_ok. apply Forall_forall. intros r Hr.
      right. exists raw. split; assumption.
Qed.

(** * Further properties *)

(** ** start and stop, call by call *)

Lemma logged_nil (w : World) : logged [] w = w.
Proof. unfold logged. rewrite app_nil_r. destruct w; reflexivity. Qed.

Lemma logged_app (a b : list ProviderCall) (w : World) :
  logged (a ++ b) w = logged b (logged a w).
Proof. unfold logged. simpl. rewrite app_assoc. reflexivity. Qed.

Lemma CUPTI_CALL_plain respond (c : ProviderCall) (w : World) :
  is_flush c = false ->
  CUPTI_CALL (provider respond c) w =
  match respond c with
  | CUPTI_SUCCESS => Returned tt (logged [c] w)
  | _ => Exited (-1) (logged [c] w)
  end.
Proof.
  intros Hc. unfold CUPTI_CALL, provider, bind, log_call, logged, ret, exit.
  destruct c; try discriminate Hc; destruct (respond _); reflexivity.
Qed.

Lemma CUPTI_CALL_flush respond (flag : Z) (w : World) :
  CUPTI_CALL (provider respond (cuptiActivityFlushAll flag)) w =
  match respond (cuptiActivityFlushAll flag) with
  | CUPTI_SUCCESS =>
      complete_all (in_flight w)
        (mkWorld (records_ w)
                 (provider_calls w ++ [cuptiActivityFlushAll flag])
                 (heap w) (freed w) [])
  | _ => Exited (-1) (logged [cuptiActivityFlushAll flag] w)
  end.
Proof.
  unfold CUPTI_CALL, provider, bind, log_call, logged, drain, ret, exit.
  simpl. destruct (respond _); try reflexivity.
  destruct (complete_all _ _) as [[] w'|code w'|w'|w']; reflexivity.
Qed.

(** A run of checked calls goes on to [k] when every call is accepted, and
    otherwise ends the process at the first call that is refused. *)
Lemma checked_then_outcome respond (cs : list ProviderCall) (k : M unit)
    (w : World) :
  forallb (fun c => negb (is_flush c)) cs = true ->
  (Forall (fun c => respond c = CUPTI_SUCCESS) cs /\
   checked_then respond cs k w = k (logged cs w)) \/
  (exists pre c post,
      cs = pre ++ c :: post /\
      Forall (fun c => respond c = CUPTI_SUCCESS) pre /\
      respond c <> CUPTI_SUCCESS /\
      checked_then respond cs k w = Exited (-1) (logged (pre ++ [c]) w)).
Proof.
  revert w. induction cs as [|c cs IH]; intros w Hcs.
  - left. split; [constructor|]. simpl. rewrite logged_nil. reflexivity.
  - simpl in Hcs. apply andb_true_iff in Hcs. destruct Hcs as [Hc Hcs].
    apply negb_true_iff in Hc.
    assert (Hstep :
      checked_then respond (c :: cs) k w =
      match respond c with
      | CUPTI_SUCCESS => checked_then respond cs k (logged [c] w)
      | _ => Exited (-1) (logged [c] w)
      end).
    { change (checked_then respond (c :: cs) k w) with
        (bind (CUPTI_CALL (provider respond c))
              (fun _ => checked_then respond cs k) w).
      unfold bind. rewrite (CUPTI_CALL_plain respond c w Hc).
      destruct (respond c); reflexivity. }
    rewrite Hstep. clear Hstep.
    destruct (respond c) eqn:Hr.
    + destruct (IH (logged [c] w) Hcs)
        as [[Hall Hk]|(pre & x & post & Hsplit & Hpre & Hx & Hk)].
      * left. split; [constructor; assumption|].
        rewrite Hk. rewrite <- logged_app. reflexivity.
      * right. exists (c :: pre), x, post. subst cs.
        split; [reflexivity|]. split; [constructor; assumption|].
        split; [exact Hx|]. rewrite Hk, <- logged_app. reflexivity.
    + right. exists [], c, cs. repeat split; try constructor; congruence.
    + right. exists [], c, cs. repeat split; try constructor; congruence.
Qed.

(** [start] on the calls it makes: it returns when all are accepted and
    otherwise ends the process right after the first refused one. *)
Lemma start_outcome :
  forall (respond : ProviderCall -> CUptiResult) (w : World),
    (Forall (fun c => respond c = CUPTI_SUCCESS) start_calls /\
     start respond w = Returned tt (logged start_calls w)) \/
    (exists pre c post,
        start_calls = pre ++ c :: post /\
        Forall (fun c => respond c = CUPTI_SUCCESS) pre /\
        respond c <> CUPTI_SUCCESS /\
        start respond w = Exited (-1) (logged (pre ++ [c]) w)).
Proof.
  intros respond w.
  set (init := removelast start_calls).
  set (lastc := last start_calls cuptiSubscribe).
  assert (Hsc : start_calls = init ++ [lastc]) by reflexivity.
  change (start respond) with
    (checked_then respond init (CUPTI_CALL (provider respond lastc))).
  rewrite Hsc.
  destruct (checked_then_outcome respond init
              (CUPTI_CALL (provider respond lastc)) w eq_refl)
    as [[Hall Hk]|(pre & x & post & Hsplit & Hpre & Hx & Hk)].
  - rewrite Hk, CUPTI_CALL_plain by reflexivity.
    rewrite <- logged_app.
    destruct (respond lastc) eqn:Hlast.
    + left. split; [|reflexivity].
      apply Forall_app. split; [exact Hall|]. constructor; [exact Hlast|].
      constructor.
    + right. exists init, lastc, [].
      repeat split; try assumption; congruence.
    + right. exists init, lastc, [].
      repeat split; try assumption; congruence.
  - right. exists pre, x, (post ++ [lastc]).
    split; [rewrite Hsplit, <- app_assoc; reflexivity|].
    repeat split; assumption.
Qed.

(** X1.  [start] issues thirteen provider calls in this order: the nine
    enable calls for context, driver, runtime, memcpy, memset, name, marker,
    kernel and overhead, the subscription, and the three callback enables
    for cuLaunchKernel, cuLaunchKernel_ptsz and cudaLaunch_v3020.  It issues
    them for as long as they are accepted: it returns when all are, and
    otherwise ends the process with [exit(-1)] right after the first refused
    call.  It does so from every state, and leaves the record store, the
    allocator and the buffers in flight as they were. *)
Theorem start_stops_at_first_refusal :
  forall (respond : ProviderCall -> CUptiResult) (w : World),
    let calls :=
      [cuptiActivityEnable CUPTI_ACTIVITY_KIND_CONTEXT;
       cuptiActivityEnable CUPTI_ACTIVITY_KIND_DRIVER;
       cuptiActivityEnable CUPTI_ACTIVITY_KIND_RUNTIME;
       cuptiActivityEnable CUPTI_ACTIVITY_KIND_MEMCPY;
       cuptiActivityEnable CUPTI_ACTIVITY_KIND_MEMSET;
       cuptiActivityEnable CUPTI_ACTIVITY_KIND_NAME;
       cuptiActivityEnable CUPTI_ACTIVITY_KIND_MARKER;
       cuptiActivityEnable CUPTI_ACTIVITY_KIND_KERNEL;
       cuptiActivityEnable CUPTI_ACTIVITY_KIND_OVERHEAD;
       cuptiSubscribe;
       cuptiEnableCallback 1 CUPTI_CB_DOMAIN_DRIVER_API
                           CUPTI_DRIVER_TRACE_CBID_cuLaunchKernel;
       cuptiEnableCallback 1 CUPTI_CB_DOMAIN_DRIVER_API
                           CUPTI_DRIVER_TRACE_CBID_cuLaunchKernel_ptsz;
       cuptiEnableCallback 1 CUPTI_CB_DOMAIN_RUNTIME_API
                           CUPTI_RUNTIME_TRACE_CBID_cudaLaunch_v3020] in
    (Forall (fun c => respond c = CUPTI_SUCCESS) calls /\
     start respond w =
     Returned tt
       (mkWorld (records_ w) (provider_calls w ++ calls) (heap w) (freed w)
                (in_flight w))) \/
    (exists pre c post,
        calls = pre ++ c :: post /\
        Forall (fun c => respond c = CUPTI_SUCCESS) pre /\
        respond c <> CUPTI_SUCCESS /\
        start respond w =
        Exited (-1)
          (mkWorld (records_ w) (provider_calls w ++ pre ++ [c]) (heap w)
                   (freed w) (in_flight w))).
Proof.
  intros respond w. cbv zeta. exact (start_outcome respond w).
Qed.


(** ** What a completion adds to the store *)

Lemma decoded_length (raw : CUpti_Activity) :
  List.length (decoded raw) =
  if is_decoded_kind (activity_kind raw) then 1%nat else 0%nat.
Proof.
  unfold decoded, ActivityCallback.
  destruct (activity_kind raw); reflexivity.
Qed.

Lemma decoded_count (raws : list CUpti_Activity) :
  List.length (flat_map decoded raws) =
  List.length (filter (fun raw => is_decoded_kind (activity_kind raw)) raws).
Proof.
  induction raws as [|raw raws IH]; [reflexivity|].
  simpl. rewrite length_app, decoded_length, IH.
  destruct (is_decoded_kind (activity_kind raw)); reflexivity.
Qed.

Lemma extraction_loop_records (l : list CursorAnswer) (w : World) :
  records_ (world_of (extraction_loop l w)) =
  records_ w ++ flat_map decoded (consumed l).
Proof.
  revert w. induction l as [|[status record] rest IH]; intros w; simpl.
  - rewrite app_nil_r. reflexivity.
  - destruct status as [| |err]; [destruct record as [r|]| |]; simpl;
      try (rewrite app_nil_r; reflexivity).
    unfold bind. rewrite ActivityCallback_appends, IH. simpl.
    rewrite <- app_assoc. reflexivity.
Qed.

Lemma InternalBufferCompleted_records (c : Completion) (w : World) :
  records_ (world_of (InternalBufferCompleted c w)) =
  records_ w ++ flat_map decoded (extracted c).
Proof.
  unfold InternalBufferCompleted, extracted, bind.
  destruct (0 <? validSize c).
  - rewrite <- extraction_loop_records.
    destruct (extraction_loop (answers c) w); reflexivity.
  - simpl. rewrite app_nil_r. reflexivity.
Qed.

(** X3.  Whatever way a completion ends, it has appended to the store, in
    cursor order, the decoding of exactly the raw records delivered before
    the first answer that is not a success, and of none when [validSize] is
    zero; the store has grown by the number of those raw records whose kind
    is driver, runtime, kernel or concurrent kernel. *)
Theorem completion_appends_extracted :
  forall (c : Completion) (w : World),
    records_ (world_of (InternalBufferCompleted c w)) =
      records_ w ++ flat_map decoded (extracted c) /\
    List.length (records_ (world_of (InternalBufferCompleted c w))) =
      (List.length (records_ w) +
       List.length (filter (fun raw => is_decoded_kind (activity_kind raw))
                           (extracted c)))%nat.
Proof.
  intros c w. split; [apply InternalBufferCompleted_records|].
  rewrite InternalBufferCompleted_records, length_app, decoded_count.
  reflexivity.
Qed.

(** ** The flush of stop *)

Lemma complete_all_returned (cs : list Completion) (w w' : World) :
  complete_all cs w = Returned tt w' ->
  records_ w' =
    records_ w ++ flat_map (fun c => flat_map decoded (extracted c)) cs /\
  freed w' = freed w ++ map buffer cs /\
  heap w' = fold_left (fun h c => release_block (buffer c) h) cs (heap w).
Proof.
  revert w. induction cs as [|c cs IH]; intros w H.
  - inversion H; subst. simpl. rewrite !app_nil_r. repeat split.
  - simpl in H. apply bind_returned in H.
    destruct H as ([] & w1 & Hc & Hrest).
    pose proof (InternalBufferCompleted_records c w) as Hrec.
    rewrite Hc in Hrec. simpl in Hrec.
    apply InternalBufferCompleted_returned in Hc.
    destruct Hc as (wl & _ & Hfree & Hheap & Hfreed).
    unfold free in Hfree. inversion Hfree; subst w1; clear Hfree.
    destruct (IH _ Hrest) as (Hr & Hf & Hh). simpl in *.
    rewrite Hr, Hf, Hh, Hrec, Hheap, Hfreed, <- !app_assoc.
    repeat split.
Qed.

Lemma stop_returned respond (w w' : World) :
  stop respond w = Returned tt w' ->
  complete_all (in_flight w)
    (mkWorld (records_ w) (provider_calls w ++ stop_calls) (heap w)
             (freed w) []) = Returned tt w'.
Proof.
  intros H. unfold stop in H.
  repeat (apply bind_returned in H; destruct H as ([] & w1 & H1 & H);
          apply CUPTI_CALL_provider_returned in H1; destruct H1 as [_ H1];
          subst w1; simpl in H).
  apply CUPTI_CALL_provider_returned in H. destruct H as [_ H].
  simpl in H. repeat rewrite <- app_assoc in H. exact H.
Qed.

(** X4.  When [stop] returns, its flush has completed every buffer that
    was in flight, oldest first: the store has grown by what each of them
    delivers, buffer after buffer, [free] has been called once on each
    buffer pointer in that order, and no buffer is left in flight. *)
Theorem stop_flushes_in_arrival_order :
  forall (respond : ProviderCall -> CUptiResult) (w w' : World),
    stop respond w = Returned tt w' ->
    records_ w' =
      records_ w ++
      flat_map (fun c => flat_map decoded (extracted c)) (in_flight w) /\
    freed w' = freed w ++ map buffer (in_flight w) /\
    heap w' =
      fold_left (fun h c => release_block (buffer c) h) (in_flight w)
                (heap w) /\
    in_flight w' = [].
Proof.
  intros respond w w' H. apply stop_returned in H.
  destruct (complete_all_returned _ _ _ H) as (Hr & Hf & Hh).
  simpl in *. repeat split; try assumption.
  match type of H with
  | complete_all _ ?W = _ =>
      pose proof (complete_all_framed (provider_calls W) (in_flight W)
                    (in_flight w) W (conj eq_refl eq_refl)) as Hframe
  end.
  rewrite H in Hframe. destruct Hframe as [_ Hheld]. exact Hheld.
Qed.

Lemma stop_flushes_in_arrival_order_witness :
  let first :=
    mkCompletion 4096 BUF_SIZE 64
      [success (mkActivity CUPTI_ACTIVITY_KIND_KERNEL
                  (mkActivityAPI 0 0 0 0 0 0)
                  (mkActivityKernel4 "relu" 30 40 0 1 3 8));
       (CUPTI_ERROR_MAX_LIMIT_REACHED, None)] in
  let second :=
    mkCompletion 8192 BUF_SIZE 64
      [success (mkActivity CUPTI_ACTIVITY_KIND_DRIVER
                  (mkActivityAPI 1 10 20 1 2 7)
                  (mkActivityKernel4 EmptyString 0 0 0 0 0 0));
       (CUPTI_ERROR_MAX_LIMIT_REACHED, None)] in
  let w := mkWorld [] [] [block_at 8192; block_at 4096] [] [first; second] in
  let w' :=
    mkWorld [mkRecord "KERNEL" "relu" 30 40 0 3 8;
             mkRecord "DRIVER" EmptyString 10 20 1 2 7]
            stop_calls [] [4096; 8192] [] in
  stop cooperative w = Returned tt w' /\
  freed w' = freed w ++ map buffer (in_flight w).
Proof.
  cbv zeta.
  match goal with
  | |- ?L = ?R /\ _ =>
      assert (H : L = R) by (vm_compute; reflexivity);
      split; [exact H|];
      exact (proj1 (proj2 (stop_flushes_in_arrival_order _ _ _ H)))
  end.
Defined.

(** ** What every operation does to the store

    A property of the store that survives the appending of what a raw
    record decodes to survives every operation. *)
Section StoreOnly.

Variable P : list Record_ -> Prop.
Hypothesis P_decoded : forall l raw, P l -> P (l ++ decoded raw).
Variable respond : ProviderCall -> CUptiResult.

Lemma ActivityCallback_keeps raw :
  preserves (fun w => P (records_ w)) (ActivityCallback raw).
Proof.
  intros w Hw. rewrite ActivityCallback_appends. simpl.
  apply P_decoded. exact Hw.
Qed.

Lemma extraction_loop_keeps l :
  preserves (fun w => P (records_ w)) (extraction_loop l).
Proof.
  induction l as [|[status record] rest IH]; simpl.
  - intros w Hw. exact Hw.
  - destruct status as [| |err].
    + destruct record as [r|]; [|intros w Hw; exact Hw].
      apply preserves_bind; [apply ActivityCallback_keeps|intros _; exact IH].
    + apply preserves_ret.
    + apply preserves_bind; [auto with keep|intros _; exact IH].
Qed.

Lemma InternalBufferCompleted_keeps c :
  preserves (fun w => P (records_ w)) (InternalBufferCompleted c).
Proof.
  unfold InternalBufferCompleted. apply preserves_bind.
  - destruct (0 <? validSize c);
      [apply extraction_loop_keeps|apply preserves_ret].
  - intros _ w Hw. exact Hw.
Qed.

Lemma complete_all_keeps cs :
  preserves (fun w => P (records_ w)) (complete_all cs).
Proof.
  induction cs as [|c cs IH]; simpl; [apply preserves_ret|].
  apply preserves_bind;
    [apply InternalBufferCompleted_keeps|intros _; exact IH].
Qed.

Lemma provider_keeps c :
  preserves (fun w => P (records_ w)) (provider respond c).
Proof.
  unfold provider. apply preserves_bind; [intros w Hw; exact Hw|].
  intros _. destruct c; try apply preserves_ret.
  destruct (respond (cuptiActivityFlushAll flag)); try apply preserves_ret.
  apply preserves_bind; [|intros _; apply preserves_ret].
  intros w Hw. unfold drain. apply complete_all_keeps. exact Hw.
Qed.

Lemma step_keeps e : preserves (fun w => P (records_ w)) (step respond e).
Proof.
  destruct e; simpl.
  - unfold start.
    repeat (apply preserves_bind;
            [apply preserves_CUPTI_CALL, provider_keeps|intros _]).
    apply preserves_CUPTI_CALL, provider_keeps.
  - unfold stop.
    repeat (apply preserves_bind;
            [apply preserves_CUPTI_CALL, provider_keeps|intros _]).
    apply preserves_CUPTI_CALL, provider_keeps.
  - unfold APICallback. destruct domain; apply preserves_ret.
  - apply preserves_bind; [|intros _; apply preserves_ret].
    unfold InternalBufferRequested. apply preserves_bind.
    + intros w Hw. unfold malloc. simpl. destruct (bfr =? 0); exact Hw.
    + intros a. destruct (a =? 0); auto with keep.
  - apply InternalBufferCompleted_keeps.
  - intros w Hw. exact Hw.
Qed.

Lemma run_keeps es : preserves (fun w => P (records_ w)) (run respond es).
Proof.
  induction es as [|e es IH]; simpl; [apply preserves_ret|].
  apply preserves_bind; [apply step_keeps|intros _; exact IH].
Qed.

End StoreOnly.

(** X5.  The store is append-only: after any session, on any provider and
    however the session ends, the store begins with the store the session
    started from; neither [start] nor [stop] clears it.  Hence the list a
    later [THPModule_endCUptiTracing] returns begins with the list an
    earlier one returned. *)
Theorem store_is_append_only :
  forall (respond : ProviderCall -> CUptiResult) (es : list Event) (w : World),
    (exists added,
        records_ (world_of (run respond es w)) = records_ w ++ added) /\
    (forall r1 w1 r2 w2,
        THPModule_endCUptiTracing respond w = Returned r1 w1 ->
        (run respond es ;; THPModule_endCUptiTracing respond) w1
          = Returned r2 w2 ->
        exists added, r2 = r1 ++ added).
Proof.
  intros respond es w.
  assert (Hgrow : forall es0 w0,
             exists added,
               records_ (world_of (run respond es0 w0)) = records_ w0 ++ added).
  { intros es0 w0.
    apply (run_keeps (fun l => exists added, l = records_ w0 ++ added)).
    - intros l raw [added Hl]. exists (added ++ decoded raw).
      rewrite Hl, app_assoc. reflexivity.
    - exists []. rewrite app_nil_r. reflexivity. }
  split; [apply Hgrow|].
  intros r1 w1 r2 w2 H1 H2.
  unfold THPModule_endCUptiTracing, get_records in H1.
  apply bind_returned in H1. destruct H1 as ([] & wa & _ & H1).
  inversion H1; subst r1 w1; clear H1.
  apply bind_returned in H2. destruct H2 as ([] & wb & Hrun & H2).
  unfold THPModule_endCUptiTracing, get_records in H2.
  apply bind_returned in H2. destruct H2 as ([] & wc & Hstop & H2).
  inversion H2; subst r2 w2; clear H2.
  destruct (Hgrow (es ++ [Ev_stop]) wa) as [added Hadded].
  exists added. rewrite <- Hadded.
  assert (Happ : run respond (es ++ [Ev_stop]) wa = Returned tt wc).
  { clear Hadded. revert wa Hrun. induction es as [|e es IH]; intros wa Hrun.
    - inversion Hrun; subst wb. simpl. unfold bind. rewrite Hstop. reflexivity.
    - simpl in *. apply bind_returned in Hrun.
      destruct Hrun as ([] & wm & Hstep & Hrun).
      unfold bind at 1. rewrite Hstep. apply IH. exact Hrun. }
  rewrite Happ. reflexivity.
Qed.

(** X6.  Host-API records never carry a name: along any session that
    starts from a store in which every record tagged DRIVER or RUNTIME has
    the empty name, every such record of the store has the empty name. *)
Theorem api_records_have_no_name :
  forall (respond : ProviderCall -> CUptiResult) (es : list Event) (w : World),
    Forall (fun r => kind r = "DRIVER"%string \/ kind r = "RUNTIME"%string ->
                     name r = EmptyString) (records_ w) ->
    Forall (fun r => kind r = "DRIVER"%string \/ kind r = "RUNTIME"%string ->
                     name r = EmptyString)
           (records_ (world_of (run respond es w))).
Proof.
  intros respond es w Hw.
  apply (run_keeps (Forall (fun r =>
           kind r = "DRIVER"%string \/ kind r = "RUNTIME"%string ->
           name r = EmptyString))); [|exact Hw].
  intros l raw Hl. apply Forall_app. split; [exact Hl|].
  unfold decoded, ActivityCallback.
  destruct (activity_kind raw); simpl; try apply Forall_nil;
    (apply Forall_cons; [simpl|apply Forall_nil]);
    try reflexivity; intros [H|H]; discriminate H.
Qed.

Lemma api_records_have_no_name_witness :
  Forall (fun r => kind r = "DRIVER"%string \/ kind r = "RUNTIME"%string ->
                   name r = EmptyString)
    (records_
       (world_of
          (run cooperative
             [Ev_start;
              Ev_BufferCompleted
                (mkCompletion 4096 BUF_SIZE 64
                   [success (mkActivity CUPTI_ACTIVITY_KIND_DRIVER
                               (mkActivityAPI 1 10 20 1 2 7)
                               (mkActivityKernel4 "stale" 0 0 0 0 0 0));
                    (CUPTI_ERROR_MAX_LIMIT_REACHED, None)]);
              Ev_stop] fresh))).
Proof.
  exact (api_records_have_no_name cooperative _ fresh
           ltac:(simpl; constructor)).
Defined.

(** ** How sessions end *)

Section Ending.

Variable lax : bool.
Variable respond : ProviderCall -> CUptiResult.

(** The buffers in flight are well terminated, unless [lax]. *)
Let held_ok (w : World) : Prop :=
  Forall (fun c => lax = true \/ well_terminated c) (in_flight w).

Lemma tame_bind {A B : Type} (I : World -> Prop) (m : M A) (f : A -> M B) :
  tame lax I m -> (forall a, tame lax I (f a)) -> tame lax I (bind m f).
Proof.
  intros Hm Hf w Hw. destruct (Hm w Hw) as [He Hi]. unfold bind.
  destruct (m w) as [a w1|code w1|w1|w1]; simpl in *;
    [apply Hf; exact Hi|split; assumption..].
Qed.

Lemma tame_ret {A : Type} (I : World -> Prop) (a : A) : tame lax I (ret a).
Proof. intros w Hw. split; [exact Logic.I|exact Hw]. Qed.

Lemma tame_exit {A : Type} (I : World -> Prop) : tame lax I (@exit A (-1)).
Proof. intros w Hw. split; [reflexivity|exact Hw]. Qed.

Lemma tame_CUPTI_CALL (I : World -> Prop) (call : M CUptiResult) :
  tame lax I call -> tame lax I (CUPTI_CALL call).
Proof.
  intros Hc. unfold CUPTI_CALL. apply tame_bind; [exact Hc|].
  intros [| |err]; auto using tame_ret, tame_exit.
Qed.

Lemma ActivityCallback_tame raw : tame lax held_ok (ActivityCallback raw).
Proof.
  intros w Hw. rewrite ActivityCallback_appends. split; [exact I|exact Hw].
Qed.

Lemma extraction_loop_tame l :
  lax = true \/
  (exists pre status record post,
      l = map success pre ++ (status, record) :: post /\
      status <> CUPTI_SUCCESS) ->
  tame lax held_ok (extraction_loop l).
Proof.
  intros [Hlax|(pre & status & record & post & Hl & Hs)].
  - induction l as [|[status record] rest IH]; simpl.
    + intros w Hw. split; [exact Hlax|exact Hw].
    + destruct status as [| |err].
      * destruct record as [r|]; [|intros w Hw; split; [exact Hlax|exact Hw]].
        apply tame_bind; [apply ActivityCallback_tame|intros _; exact IH].
      * apply tame_ret.
      * apply tame_bind; [|intros _; exact IH].
        apply tame_CUPTI_CALL, tame_ret.
  - subst l. induction pre as [|r pre IH]; simpl.
    + destruct status as [| |err]; [congruence|apply tame_ret|].
      intros w Hw. split; [reflexivity|exact Hw].
    + apply tame_bind; [apply ActivityCallback_tame|intros _; exact IH].
Qed.

Lemma InternalBufferCompleted_tame c :
  lax = true \/ well_terminated c ->
  tame lax held_ok (InternalBufferCompleted c).
Proof.
  intros Hc. unfold InternalBufferCompleted.
  apply tame_bind; [|intros _ w Hw; split; [exact I|exact Hw]].
  destruct (0 <? validSize c) eqn:Hvalid; [|apply tame_ret].
  apply extraction_loop_tame.
  destruct Hc as [Hlax|[Hzero|Hex]]; [left; exact Hlax| |right; exact Hex].
  apply Z.ltb_lt in Hvalid. lia.
Qed.

Lemma complete_all_tame cs :
  Forall (fun c => lax = true \/ well_terminated c) cs ->
  tame lax held_ok (complete_all cs).
Proof.
  induction cs as [|c cs IH]; intros Hcs; simpl; [apply tame_ret|].
  inversion Hcs; subst.
  apply tame_bind; [apply InternalBufferCompleted_tame; assumption|].
  intros _. apply IH. assumption.
Qed.

Lemma provider_tame c : tame lax held_ok (provider respond c).
Proof.
  unfold provider. apply tame_bind; [intros w Hw; split; [exact I|exact Hw]|].
  intros _. destruct c; try apply tame_ret.
  destruct (respond (cuptiActivityFlushAll flag)); try apply tame_ret.
  apply tame_bind; [|intros _; apply tame_ret].
  intros w Hw. unfold drain.
  apply (complete_all_tame (in_flight w) Hw). constructor.
Qed.

Lemma step_tame e :
  Forall (fun c => lax = true \/ well_terminated c) (completions_of e) ->
  tame lax held_ok (step respond e).
Proof.
  destruct e; simpl; intros He.
  - unfold start.
    repeat (apply tame_bind; [apply tame_CUPTI_CALL, provider_tame|intros _]).
    apply tame_CUPTI_CALL, provider_tame.
  - unfold stop.
    repeat (apply tame_bind; [apply tame_CUPTI_CALL, provider_tame|intros _]).
    apply tame_CUPTI_CALL, provider_tame.
  - unfold APICallback. destruct domain; apply tame_ret.
  - apply tame_bind; [|intros _; apply tame_ret].
    unfold InternalBufferRequested. apply tame_bind.
    + intros w Hw. unfold malloc. simpl.
      split; [exact I|destruct (bfr =? 0); exact Hw].
    + intros a. destruct (a =? 0); [apply tame_exit|apply tame_ret].
  - apply InternalBufferCompleted_tame. inversion He; assumption.
  - intros w Hw. split; [exact I|].
    unfold held_ok, hold. simpl. apply Forall_app. split; assumption.
Qed.

Lemma run_tame es :
  Forall (fun c => lax = true \/ well_terminated c)
         (flat_map completions_of es) ->
  tame lax held_ok (run respond es).
Proof.
  induction es as [|e es IH]; simpl; intros Hes; [apply tame_ret|].
  apply Forall_app in Hes. destruct Hes as [He Hes].
  apply tame_bind; [apply step_tame; exact He|intros _; apply IH; exact Hes].
Qed.

End Ending.

(** X7.  A session terminates whenever each of its buffers is well
    terminated, that is, has [validSize] zero or a cursor that answers a
    status other than success after the records it delivers: on every
    provider the session returns or ends the process with [exit(-1)]; it
    never dereferences a null record and never stays in an extraction
    loop. *)
Theorem well_terminated_sessions_end :
  forall (respond : ProviderCall -> CUptiResult) (es : list Event) (w : World),
    Forall well_terminated (in_flight w) ->
    Forall well_terminated (flat_map completions_of es) ->
    exists w',
      run respond es w = Returned tt w' \/ run respond es w = Exited (-1) w'.
Proof.
  intros respond es w Hw Hes.
  assert (Hrun : tame false
            (fun w0 => Forall (fun c => false = true \/ well_terminated c)
                              (in_flight w0))
            (run respond es)).
  { apply run_tame.
    apply Forall_impl with (P := well_terminated); [|exact Hes].
    intros c Hc. right. exact Hc. }
  destruct (Hrun w) as [Hends _].
  { apply Forall_impl with (P := well_terminated); [|exact Hw].
    intros c Hc. right. exact Hc. }
  destruct (run respond es w) as [[] w'|code w'|w'|w']; simpl in Hends;
    try discriminate Hends.
  - exists w'. left. reflexivity.
  - exists w'. right. rewrite Hends. reflexivity.
Qed.

Lemma well_terminated_sessions_end_witness :
  exists w',
    run cooperative
      [Ev_start; Ev_BufferRequested 4096;
       Ev_filled
         (mkCompletion 4096 BUF_SIZE 64
            [success (mkActivity CUPTI_ACTIVITY_KIND_DRIVER
                        (mkActivityAPI 1 10 20 1 2 7)
                        (mkActivityKernel4 EmptyString 0 0 0 0 0 0));
             (CUPTI_ERROR_OTHER 7, None)]);
       Ev_stop] fresh = Returned tt w' \/
    run cooperative
      [Ev_start; Ev_BufferRequested 4096;
       Ev_filled
         (mkCompletion 4096 BUF_SIZE 64
            [success (mkActivity CUPTI_ACTIVITY_KIND_DRIVER
                        (mkActivityAPI 1 10 20 1 2 7)
                        (mkActivityKernel4 EmptyString 0 0 0 0 0 0));
             (CUPTI_ERROR_OTHER 7, None)]);
       Ev_stop] fresh = Exited (-1) w'.
Proof.
  apply (well_terminated_sessions_end cooperative _ fresh).
  - simpl. constructor.
  - simpl. constructor; [|constructor].
    right.
    exists [mkActivity CUPTI_ACTIVITY_KIND_DRIVER
              (mkActivityAPI 1 10 20 1 2 7)
              (mkActivityKernel4 EmptyString 0 0 0 0 0 0)],
           (CUPTI_ERROR_OTHER 7), None, [].
    split; [reflexivity|discriminate].
Defined.

(** X8.  The only status with which this code ends the process is -1: in
    any session, on any provider and with any buffers, an exit is
    [exit(-1)]. *)
Theorem sessions_exit_with_minus_one :
  forall (respond : ProviderCall -> CUptiResult) (es : list Event)
         (w w' : World) (code : Z),
    run respond es w = Exited code w' -> code = -1.
Proof.
  intros respond es w w' code H.
  assert (Hrun : tame true
            (fun w0 => Forall (fun c => true = true \/ well_terminated c)
                              (in_flight w0))
            (run respond es)).
  { apply run_tame. apply Forall_forall. intros c _. left. reflexivity. }
  destruct (Hrun w) as [Hends _].
  { apply Forall_forall. intros c _. left. reflexivity. }
  rewrite H in Hends. exact Hends.
Qed.

Lemma sessions_exit_with_minus_one_witness :
  run (fun c => match c with
                | cuptiSubscribe => CUPTI_ERROR_OTHER 1
                | _ => CUPTI_SUCCESS
                end)
      [Ev_start] fresh
  = Exited (-1) (logged (firstn 10 start_calls) fresh) /\
  -1 = -1.
Proof.
  assert (H : run (fun c => match c with
                            | cuptiSubscribe => CUPTI_ERROR_OTHER 1
                            | _ => CUPTI_SUCCESS
                            end)
                  [Ev_start] fresh
              = Exited (-1) (logged (firstn 10 start_calls) fresh))
    by (vm_compute; reflexivity).
  split; [exact H|].
  exact (sessions_exit_with_minus_one _ _ _ _ _ H).
Defined.

(** ** ALIGN_BUFFER *)

Lemma ALIGN_BUFFER_pow2 (k b : Z) :
  0 <= k <= 64 ->
  ALIGN_BUFFER b (2 ^ k) =
  if b mod 2 ^ k =? 0 then b else b + 2 ^ k - b mod 2 ^ k.
Proof.
  intros Hk. unfold ALIGN_BUFFER, uintptr_t.
  replace (2 ^ k - 1) with (Z.ones k) by (rewrite Z.ones_equiv; lia).
  rewrite Z.land_ones by lia.
  rewrite Z.mod_mod_divide.
  - destruct (b mod 2 ^ k =? 0); reflexivity.
  - exists (2 ^ (64 - k)). rewrite <- Z.pow_add_r by lia.
    f_equal. lia.
Qed.

(** The arithmetic of [ALIGN_BUFFER] on a power of two. *)
Lemma ALIGN_BUFFER_arithmetic :
  forall k b : Z,
    0 <= k <= 64 ->
    ALIGN_BUFFER b (2 ^ k) mod 2 ^ k = 0 /\
    b <= ALIGN_BUFFER b (2 ^ k) < b + 2 ^ k /\
    (forall m, b <= m -> m mod 2 ^ k = 0 -> ALIGN_BUFFER b (2 ^ k) <= m) /\
    ALIGN_BUFFER (ALIGN_BUFFER b (2 ^ k)) (2 ^ k) = ALIGN_BUFFER b (2 ^ k).
Proof.
  intros k b Hk.
  assert (Hpos : 0 < 2 ^ k) by (apply Z.pow_pos_nonneg; lia).
  assert (Haligned : ALIGN_BUFFER b (2 ^ k) mod 2 ^ k = 0).
  { rewrite ALIGN_BUFFER_pow2 by exact Hk.
    destruct (b mod 2 ^ k =? 0) eqn:Hmod; [apply Z.eqb_eq; exact Hmod|].
    pose proof (Z.div_mod b (2 ^ k) ltac:(lia)) as Hd.
    replace (b + 2 ^ k - b mod 2 ^ k) with ((b / 2 ^ k + 1) * 2 ^ k) by lia.
    apply Z_mod_mult. }
  split; [exact Haligned|].
  split; [|split].
  - rewrite ALIGN_BUFFER_pow2 by exact Hk.
    pose proof (Z.mod_pos_bound b (2 ^ k) Hpos) as Hm.
    destruct (b mod 2 ^ k =? 0) eqn:Hmod; [lia|].
    apply Z.eqb_neq in Hmod. lia.
  - intros m Hbm Hm. rewrite ALIGN_BUFFER_pow2 by exact Hk.
    destruct (b mod 2 ^ k =? 0) eqn:Hmod; [exact Hbm|].
    apply Z.eqb_neq in Hmod.
    pose proof (Z.mod_pos_bound b (2 ^ k) Hpos) as Hb.
    pose proof (Z.div_mod b (2 ^ k) ltac:(lia)) as Hd.
    pose proof (Z.div_mod m (2 ^ k) ltac:(lia)) as Hdm.
    rewrite Hm in Hdm.
    assert (Hq : b / 2 ^ k < m / 2 ^ k) by nia.
    nia.
  - rewrite (ALIGN_BUFFER_pow2 k (ALIGN_BUFFER b (2 ^ k))) by exact Hk.
    rewrite Haligned. reflexivity.
Qed.

(** X9.  For an alignment that is a power of two below 2^64 and an address
    with a whole alignment of address space above it, so that the pointer
    addition of the macro does not leave the address space, [ALIGN_BUFFER]
    rounds the address up to the next multiple of the alignment: the result
    is an address, is a multiple of the alignment, is at least the given
    address and less than one alignment above it, is the least such
    multiple, and is left as it is by a second [ALIGN_BUFFER]. *)
Theorem ALIGN_BUFFER_rounds_up :
  forall k b : Z,
    0 <= k < 64 ->
    0 <= b ->
    b + 2 ^ k < 2 ^ 64 ->
    0 <= ALIGN_BUFFER b (2 ^ k) < 2 ^ 64 /\
    ALIGN_BUFFER b (2 ^ k) mod 2 ^ k = 0 /\
    b <= ALIGN_BUFFER b (2 ^ k) < b + 2 ^ k /\
    (forall m, b <= m -> m mod 2 ^ k = 0 -> ALIGN_BUFFER b (2 ^ k) <= m) /\
    ALIGN_BUFFER (ALIGN_BUFFER b (2 ^ k)) (2 ^ k) = ALIGN_BUFFER b (2 ^ k).
Proof.
  intros k b Hk Hb Hroom.
  destruct (ALIGN_BUFFER_arithmetic k b ltac:(lia))
    as (Hmod & Hrange & Hleast & Hfix).
  split; [lia|]. split; [exact Hmod|]. split; [exact Hrange|].
  split; [exact Hleast|exact Hfix].
Qed.

Lemma ALIGN_BUFFER_rounds_up_witness :
  0 <= ALIGN_BUFFER 4097 (2 ^ 4) < 2 ^ 64 /\
  ALIGN_BUFFER 4097 (2 ^ 4) mod 2 ^ 4 = 0 /\
  4097 <= ALIGN_BUFFER 4097 (2 ^ 4) < 4097 + 2 ^ 4.
Proof.
  pose proof (ALIGN_BUFFER_rounds_up 4 4097 ltac:(lia) ltac:(lia)
                ltac:(reflexivity)) as H.
  split; [exact (proj1 H)|].
  split; [exact (proj1 (proj2 H))|exact (proj1 (proj2 (proj2 H)))].
Defined.

(** ** Buffers requested and given back *)

Lemma run_app respond (a b : list Event) (w : World) :
  run respond (a ++ b) w = bind (run respond a) (fun _ => run respond b) w.
Proof.
  revert w. induction a as [|e a IH]; intros w; [reflexivity|].
  simpl. unfold bind.
  destruct (step respond e w) as [[] w1|code w1|w1|w1]; try reflexivity.
  rewrite IH. reflexivity.
Qed.

Lemma run_requests respond (bs : list Z) (w : World) :
  Forall (fun b => b <> 0) bs ->
  run respond (map Ev_BufferRequested bs) w =
  Returned tt (set_heap (rev (map block_at bs) ++ heap w) (freed w) w).
Proof.
  revert w. induction bs as [|b bs IH]; intros w Hbs.
  - destruct w; reflexivity.
  - inversion Hbs as [|b0 bs0 Hb Hrest]; subst.
    simpl. unfold bind at 1. unfold bind at 1.
    rewrite (InternalBufferRequested_returned b w Hb).
    unfold ret at 1. rewrite (IH _ Hrest). unfold set_heap. simpl.
    rewrite <- app_assoc. reflexivity.
Qed.

Lemma InternalBufferCompleted_at_limit (c : Completion) (w : World) :
  ends_at_limit c ->
  exists w',
    InternalBufferCompleted c w = Returned tt w' /\
    heap w' = release_block (buffer c) (heap w) /\
    freed w' = freed w ++ [buffer c].
Proof.
  intros Hc. unfold InternalBufferCompleted, bind.
  destruct (0 <? validSize c) eqn:Hvalid.
  - destruct Hc as [Hzero|(pre & record & post & Hans)].
    + apply Z.ltb_lt in Hvalid. lia.
    + rewrite Hans, extraction_loop_delivers. simpl.
      eexists. split; [reflexivity|]. split; reflexivity.
  - simpl. eexists. split; [reflexivity|]. split; reflexivity.
Qed.

Lemma release_block_skip (b : Z) (l : list Z) (h : list (Z * Z)) :
  ~ In b l ->
  release_block b (map block_at l ++ block_at b :: h) = map block_at l ++ h.
Proof.
  induction l as [|a l IH]; intros Hb; simpl.
  - rewrite Z.eqb_refl. reflexivity.
  - destruct (a =? b) eqn:Hab.
    + apply Z.eqb_eq in Hab. exfalso. apply Hb. left. exact Hab.
    + rewrite IH; [reflexivity|]. intros Hin. apply Hb. right. exact Hin.
Qed.

Lemma run_completions respond (cs : list Completion) (bs : list Z)
    (h : list (Z * Z)) (w : World) :
  NoDup bs ->
  map buffer cs = bs ->
  Forall ends_at_limit cs ->
  heap w = rev (map block_at bs) ++ h ->
  exists w',
    run respond (map Ev_BufferCompleted cs) w = Returned tt w' /\
    heap w' = h /\ freed w' = freed w ++ bs.
Proof.
  revert bs w. induction cs as [|c cs IH]; intros bs w Hnd Hmap Hcs Hheap.
  - simpl in Hmap. subst bs. exists w. simpl in Hheap.
    rewrite app_nil_r. repeat split. exact Hheap.
  - destruct bs as [|b bs]; [discriminate Hmap|].
    simpl in Hmap. inversion Hmap as [[Hb Hrest]]. clear Hmap.
    inversion Hnd as [|b0 bs0 Hnotin Hnd']; subst b0 bs0.
    inversion Hcs as [|c0 cs0 Hc Hcs']; subst c0 cs0.
    destruct (InternalBufferCompleted_at_limit c w Hc)
      as (w1 & Hdone & Hheap1 & Hfreed1).
    assert (Hh1 : heap w1 = rev (map block_at bs) ++ h).
    { rewrite Hheap1, Hheap, Hb. simpl. rewrite <- app_assoc. simpl.
      rewrite <- map_rev. apply release_block_skip.
      rewrite <- in_rev. exact Hnotin. }
    destruct (IH bs w1 Hnd' Hrest Hcs' Hh1) as (w' & Hrun & Hh & Hf).
    exists w'. simpl. unfold bind. rewrite Hdone.
    split; [exact Hrun|]. split; [exact Hh|].
    rewrite Hf, Hfreed1, Hb, <- app_assoc. simpl.
    rewrite ?Hrest. reflexivity.
Qed.

(** X10.  Requests and completions balance on an allocator that answers
    distinct non-null multiples of 8: when the provider asks for buffers and
    later hands each of them back once, in the order it got them and with a
    cursor that ends on [CUPTI_ERROR_MAX_LIMIT_REACHED], the session
    returns, the live blocks are again those before the first request, and
    [free] was called on exactly the addresses the allocator answered. *)
Theorem requested_buffers_are_given_back :
  forall (respond : ProviderCall -> CUptiResult) (bs : list Z)
         (cs : list Completion) (w : World),
    NoDup bs ->
    Forall (fun b => b <> 0 /\ b mod 8 = 0) bs ->
    map buffer cs = map (fun b => ALIGN_BUFFER b ALIGN_SIZE) bs ->
    Forall ends_at_limit cs ->
    exists w',
      run respond (map Ev_BufferRequested bs ++ map Ev_BufferCompleted cs) w
        = Returned tt w' /\
      heap w' = heap w /\
      freed w' = freed w ++ bs.
Proof.
  intros respond bs cs w Hnd Hbs Hmap Hcs.
  assert (Haligned : map (fun b => ALIGN_BUFFER b ALIGN_SIZE) bs = bs).
  { rewrite <- (map_id bs) at 2. apply map_ext_in. intros b Hb.
    rewrite Forall_forall in Hbs. destruct (Hbs b Hb) as [_ Hmod].
    rewrite ALIGN_BUFFER_8, Hmod. reflexivity. }
  rewrite Haligned in Hmap.
  rewrite run_app. unfold bind. rewrite run_requests.
  - destruct (run_completions respond cs bs (heap w)
                (set_heap (rev (map block_at bs) ++ heap w) (freed w) w)
                Hnd Hmap Hcs eq_refl) as (w' & Hrun & Hh & Hf).
    exists w'. split; [exact Hrun|]. split; [exact Hh|exact Hf].
  - apply Forall_impl with (2 := Hbs). intros b [Hb _]. exact Hb.
Qed.

Lemma requested_buffers_are_given_back_witness :
  exists w',
    run cooperative
      (map Ev_BufferRequested [4096; 8192] ++
       map Ev_BufferCompleted
         [mkCompletion 4096 BUF_SIZE 0 [];
          mkCompletion 8192 BUF_SIZE 64
            [(CUPTI_ERROR_MAX_LIMIT_REACHED, None)]]) fresh
      = Returned tt w' /\
    heap w' = heap fresh /\
    freed w' = freed fresh ++ [4096; 8192].
Proof.
  apply (requested_buffers_are_given_back cooperative [4096; 8192]).
  - repeat constructor; simpl; intuition discriminate.
  - repeat constructor; discriminate.
  - reflexivity.
  - constructor; [left; simpl; lia|].
    constructor; [|constructor].
    right. exists [], None, []. reflexivity.
Defined.

(** ** The list handed to Python *)

Lemma py_record_of_row (r : Record_) : py_record_of r = row r.
Proof. reflexivity. Qed.

Lemma convert_from_eq (fuel : nat) (i : Z) (records : list Record_)
    (ret : PyObject) :
  convert_from fuel i records ret =
  if i <? Z.of_nat (List.length records) then
    match fuel with
    | O => None
    | S fuel' =>
        match nth_error records (Z.to_nat i) with
        | Some record =>
            if i =? INT_MAX then None
            else convert_from fuel' (i + 1) records
                   (PyList_SetItem ret i (Some (py_record_of record)))
        | None => None
        end
    end
  else Some ret.
Proof. destruct fuel; reflexivity. Qed.

Lemma set_nth_middle {A : Type} (a b : list A) (x y : A) :
  set_nth (List.length a) x (a ++ y :: b) = a ++ x :: b.
Proof.
  induction a as [|z a IH]; simpl; [reflexivity|]. rewrite IH. reflexivity.
Qed.

Lemma firstn_snoc {A : Type} (l : list A) (i : nat) (x : A) :
  nth_error l i = Some x -> firstn (S i) l = firstn i l ++ [x].
Proof.
  revert i. induction l as [|a l IH]; intros [|i] H; try discriminate H.
  - inversion H; subst. reflexivity.
  - simpl in H.
    change (firstn (S (S i)) (a :: l)) with (a :: firstn (S i) l).
    rewrite (IH i H). reflexivity.
Qed.

(** The loop invariant: before iteration [i] the first [i] items are the
    rows of the first [i] records and the others are still null. *)
Lemma convert_from_rows (records : list Record_) (fuel i : nat) :
  Z.of_nat (List.length records) <= INT_MAX ->
  (i <= List.length records)%nat ->
  (List.length records - i <= fuel)%nat ->
  convert_from fuel (Z.of_nat i) records
    (PyList (map (fun r => Some (row r)) (firstn i records) ++
             repeat None (List.length records - i)))
  = Some (PyList (map (fun r => Some (row r)) records)).
Proof.
  intros Hmax. revert i. induction fuel as [|fuel IH]; intros i Hi Hfuel.
  - rewrite convert_from_eq.
    assert (Hin : i = List.length records) by lia. subst i.
    rewrite Z.ltb_irrefl, firstn_all, Nat.sub_diag. simpl.
    rewrite app_nil_r. reflexivity.
  - rewrite convert_from_eq.
    destruct (Z.of_nat i <? Z.of_nat (List.length records)) eqn:Hlt.
    + apply Z.ltb_lt in Hlt. rewrite Nat2Z.id.
      destruct (nth_error records i) as [r|] eqn:Hnth.
      * assert (Hne : (Z.of_nat i =? INT_MAX) = false)
          by (apply Z.eqb_neq; lia).
        rewrite Hne.
        replace (Z.of_nat i + 1) with (Z.of_nat (S i)) by lia.
        rewrite <- (IH (S i)) by lia. f_equal.
        rewrite py_record_of_row. unfold PyList_SetItem.
        rewrite length_app, length_map, length_firstn, repeat_length.
        replace (0 <=? Z.of_nat i) with true
          by (symmetry; apply Z.leb_le; lia).
        replace (Z.of_nat i <?
                 Z.of_nat (Nat.min i (List.length records) +
                           (List.length records - i)))
          with true by (symmetry; apply Z.ltb_lt; lia).
        simpl andb. cbv iota. rewrite Nat2Z.id. f_equal.
        replace (List.length records - i)%nat
          with (S (List.length records - S i)) by lia.
        simpl repeat.
        replace i with
          (List.length (map (fun r0 => Some (row r0)) (firstn i records)))
          at 1 by (rewrite length_map, length_firstn; lia).
        rewrite set_nth_middle, (firstn_snoc records i r Hnth), map_app.
        rewrite <- app_assoc. reflexivity.
      * apply nth_error_None in Hnth. lia.
    + apply Z.ltb_ge in Hlt.
      assert (Hin : i = List.length records) by lia. subst i.
      rewrite firstn_all, Nat.sub_diag. simpl.
      rewrite app_nil_r. reflexivity.
Qed.

(** X11.  When [stop] returns and the store holds at most [INT_MAX]
    records, the Python method [end_cupti_tracing] returns a list with one
    row per record of the store, in store order.  A row has seven items, in
    the order kind, name, start, end, processId, threadId, correlationId;
    the five numbers are always set, and the two strings are set to the text
    of the C string where its bytes are UTF-8 and left null where they are
    not.  So a row has every item set exactly when the bytes of the kind
    and of the name of its record are UTF-8. *)
Theorem end_cupti_tracing_rows :
  forall (respond : ProviderCall -> CUptiResult) (w w' : World)
         (records : list Record_),
    THPModule_endCUptiTracing respond w = Returned records w' ->
    Z.of_nat (List.length records) <= INT_MAX ->
    end_cupti_tracing respond w =
      Returned (PyList (map (fun r => Some (row r)) records)) w' /\
    (forall r,
        row r = full_row r <->
        valid_utf8 (c_str (kind r)) = true /\
        valid_utf8 (c_str (name r)) = true) /\
    (forall r,
        valid_utf8 (c_str (name r)) = false ->
        exists item0,
          row r =
          PyList [item0; None;
                  Some (PyLong (start_ns r)); Some (PyLong (end_ns r));
                  Some (PyLong (processId r)); Some (PyLong (threadId r));
                  Some (PyLong (correlationId r))]).
Proof.
  intros respond w w' records H Hmax. split; [|split].
  - unfold THPModule_endCUptiTracing, get_records in H.
    apply bind_returned in H. destruct H as ([] & w1 & Hstop & H).
    inversion H; subst records w1; clear H.
    unfold end_cupti_tracing, bind, get_records. rewrite Hstop.
    unfold PyList_New. rewrite Nat2Z.id.
    pose proof (convert_from_rows (records_ w') (List.length (records_ w')) 0
                  Hmax ltac:(lia) ltac:(lia)) as Hrows.
    simpl firstn in Hrows. simpl map in Hrows. simpl app in Hrows.
    rewrite Nat.sub_0_r in Hrows. simpl Z.of_nat in Hrows.
    rewrite Hrows. reflexivity.
  - intros r. unfold row, full_row, PyUnicode_FromString.
    destruct (valid_utf8 (c_str (kind r)));
      destruct (valid_utf8 (c_str (name r)));
      split; try (intros Heq; discriminate Heq);
      try (intros [Hk Hn]; discriminate);
      try (intros _; split; reflexivity); try reflexivity.
  - intros r Hname. unfold row, PyUnicode_FromString. rewrite Hname.
    eexists. reflexivity.
Qed.

Lemma end_cupti_tracing_rows_witness :
  let c :=
    mkCompletion 4096 BUF_SIZE 64
      [success (mkActivity CUPTI_ACTIVITY_KIND_RUNTIME
                  (mkActivityAPI 5 100 150 1 7 42)
                  (mkActivityKernel4 EmptyString 0 0 0 0 0 0));
       success (mkActivity CUPTI_ACTIVITY_KIND_KERNEL
                  (mkActivityAPI 0 0 0 0 0 0)
                  (mkActivityKernel4 "matmul" 160 300 0 1 3 42));
       (CUPTI_ERROR_MAX_LIMIT_REACHED, None)] in
  let w := mkWorld [] [] [] [] [c] in
  let records :=
    [mkRecord "RUNTIME" EmptyString 100 150 1 7 42;
     mkRecord "KERNEL" "matmul" 160 300 0 3 42] in
  let w' := mkWorld records stop_calls [] [4096] [] in
  THPModule_endCUptiTracing cooperative w = Returned records w' /\
  end_cupti_tracing cooperative w =
  Returned
    (PyList
       [Some (PyList [Some (PyUnicode "RUNTIME"); Some (PyUnicode EmptyString);
                      Some (PyLong 100); Some (PyLong 150); Some (PyLong 1);
                      Some (PyLong 7); Some (PyLong 42)]);
        Some (PyList [Some (PyUnicode "KERNEL"); Some (PyUnicode "matmul");
                      Some (PyLong 160); Some (PyLong 300); Some (PyLong 0);
                      Some (PyLong 3); Some (PyLong 42)])])
    w'.
Proof.
  cbv zeta.
  match goal with
  | |- ?L = ?R /\ _ =>
      assert (H : L = R) by (vm_compute; reflexivity);
      split; [exact H|];
      exact (proj1 (end_cupti_tracing_rows _ _ _ _ H
                      ltac:(vm_compute; discriminate)))
  end.
Defined.

(** A kernel name whose bytes are not UTF-8 (here the single byte 255)
    leaves the name of its row null. *)
Example end_cupti_tracing_undecodable_name :
  end_cupti_tracing cooperative
    (mkWorld [mkRecord "KERNEL" (String (Ascii.ascii_of_nat 255) EmptyString)
                       160 300 0 3 42] [] [] [] [])
  = Returned
      (PyList
         [Some (PyList [Some (PyUnicode "KERNEL"); None;
                        Some (PyLong 160); Some (PyLong 300);
                        Some (PyLong 0); Some (PyLong 3);
                        Some (PyLong 42)])])
      (mkWorld [mkRecord "KERNEL" (String (Ascii.ascii_of_nat 255) EmptyString)
                         160 300 0 3 42] stop_calls [] [] []).
Proof. vm_compute. reflexivity. Qed.
